(** * sogs/cleanup.py: periodic database cleanup

    A shallow embedding of [src/sogs/cleanup.py] and the properties of its
    four pruning operations and of the [cleanup] driver.

    The module works on three pieces of outside state: the relational store
    (five tables), the upload directory on disk, and the wall clock.  They are
    gathered in one [World] record that every operation threads through an
    error-and-state monad.  Timestamps are whole seconds since the epoch,
    taken in [Z]; they are compared with each other, and the retention window
    is subtracted from the clock reading with the rounding of the floats the
    code computes with. *)

From Stdlib Require Import ZArith String Lia.
From stdpp Require Import gmap strings list fin_maps.

Local Open Scope Z_scope.

(** ** Exceptions *)

(** The [Exception] subclasses that reach this module: the two kinds
    [os.unlink] raises and the store's own errors. *)
Inductive exn : Type :=
| FileNotFoundError (filename : string)
| OSError (strerror : string)
| DatabaseError (msg : string).

(** ** The store *)

(** A row of [files]: the columns the module reads. *)
Record FileRow : Type := { path : string; expiry : Z }.

(** A row of [message_history]; [message] stands for the columns the module
    never looks at. *)
Record HistoryRow : Type := { message : Z; replaced : Z }.

(** A row of [room_users]. *)
Record RoomUserRow : Type := { ru_room : Z; ru_user : Z; last_active : Z }.

(** The four nullable permission columns. *)
Record Flags : Type :=
  { read : option bool; write : option bool;
    upload : option bool; banned : option bool }.

(** A row of [user_permission_futures]; [at_] is the column [at]. *)
Record Future : Type := { room : Z; user : Z; at_ : Z; perms : Flags }.

(** [user_permission_overrides] has (room, user) as its conflict target, so
    it is a finite map from that key to the flags. *)
Record Db : Type :=
  { files : list FileRow;
    message_history : list HistoryRow;
    room_users : list RoomUserRow;
    user_permission_overrides : gmap (Z * Z) Flags;
    user_permission_futures : list Future }.

(** ** Floats *)

(** [time.time()] returns a float, and the subtraction of the retention
    window is float arithmetic.  All the times of this development are whole
    seconds, so a float is kept as the integer it holds, or as one of the two
    infinities that arithmetic on very large values can give. *)
Inductive float : Type :=
| finite (seconds : Z)
| infinity (negative : bool).

(** The binary64 float nearest to an integer, ties to the even significand:
    the integer itself up to 2^53 in magnitude, a multiple of the unit in the
    last place beyond, and an infinity once the rounded magnitude reaches
    2^1024. *)
Definition binary64 (z : Z) : float :=
  let a := Z.abs z in
  let ulp := 2 ^ Z.max 0 (Z.log2 a - 52) in
  let q := a / ulp in
  let r := a mod ulp in
  let q' := if decide (2 * r < ulp) then q
            else if decide (ulp < 2 * r) then q + 1
            else if Z.even q then q else q + 1 in
  if decide (q' * ulp < 2 ^ 1024) then finite (Z.sgn z * (q' * ulp))
  else infinity (bool_decide (z < 0)).

(** [x * k] for a float [x] that holds a whole number and an [int] [k]. *)
Definition float_mul (x k : Z) : float := binary64 (x * k).

(** [x - y] for a float [x] that holds a whole number and a float [y]. *)
Definition float_sub (x : Z) (y : float) : float :=
  match y with
  | finite z => binary64 (x - z)
  | infinity negative => infinity (negb negative)
  end.

(** The SQL comparison [column < ?] of an integral column value with a float
    parameter. *)
Definition lt_float (x : Z) (c : float) : Prop :=
  match c with
  | finite z => x < z
  | infinity negative => negative = false
  end.

#[global] Instance lt_float_dec x c : Decision (lt_float x c).
Proof. destruct c; simpl; apply _. Defined.

(** ** SQL *)

(** The six statements of the module, in source order, each with its one
    bound parameter. *)
Inductive statement : Type :=
| SELECT_path_FROM_files_WHERE_expiry_lt (now : Z)
| DELETE_FROM_files_WHERE_expiry_le (now : Z)
| DELETE_FROM_message_history_WHERE_replaced_lt (cutoff : float)
| DELETE_FROM_room_users_WHERE_last_active_lt (cutoff : float)
| INSERT_INTO_user_permission_overrides_SELECT_futures_WHERE_at_le (now : Z)
| DELETE_FROM_user_permission_futures_WHERE_at_le (now : Z).

(** What a cursor shows after [execute]: the result rows (here only ever a
    column of paths) and [rowcount]. *)
Record Cursor : Type := { fetched : list string; rowcount : Z }.

(** [DELETE FROM t WHERE P]: the rows kept and the number of rows removed. *)
Definition delete_where {A} (P : A → Prop) `{∀ x, Decision (P x)}
    (t : list A) : list A * Z :=
  (filter (λ r, ¬ P r) t, Z.of_nat (length (filter P t))).

(** SQL [COALESCE(x, y)]: the first argument that is not NULL. *)
Definition COALESCE {A} (x y : option A) : option A :=
  match x with
  | Some v => Some v
  | None => y
  end.

(** One row of [INSERT ... ON CONFLICT (room, user) DO UPDATE SET ...]:
    without a conflicting row the selected values go in as they are; with
    one, every column is set to [COALESCE(excluded.c, c)].  The statement
    feeds the selected rows through this one after the other, in table
    order, each seeing what the earlier ones wrote. *)
Definition upsert (ov : gmap (Z * Z) Flags) (excluded : Future)
    : gmap (Z * Z) Flags :=
  let key := (room excluded, user excluded) in
  match ov !! key with
  | None => <[key := perms excluded]> ov
  | Some row =>
      <[key := {| read := COALESCE (read (perms excluded)) (read row);
                  write := COALESCE (write (perms excluded)) (write row);
                  upload := COALESCE (upload (perms excluded)) (upload row);
                  banned := COALESCE (banned (perms excluded)) (banned row) |}]> ov
  end.

Definition run_statement (s : statement) (d : Db) : Db * Cursor :=
  match s with
  | SELECT_path_FROM_files_WHERE_expiry_lt now =>
      (d, {| fetched := path <$> filter (λ r, expiry r < now) (files d);
             rowcount := -1 |})
  | DELETE_FROM_files_WHERE_expiry_le now =>
      let '(kept, n) := delete_where (λ r, expiry r ≤ now) (files d) in
      ({| files := kept;
          message_history := message_history d;
          room_users := room_users d;
          user_permission_overrides := user_permission_overrides d;
          user_permission_futures := user_permission_futures d |},
       {| fetched := []; rowcount := n |})
  | DELETE_FROM_message_history_WHERE_replaced_lt cutoff =>
      let '(kept, n) := delete_where (λ r, lt_float (replaced r) cutoff) (message_history d) in
      ({| files := files d;
          message_history := kept;
          room_users := room_users d;
          user_permission_overrides := user_permission_overrides d;
          user_permission_futures := user_permission_futures d |},
       {| fetched := []; rowcount := n |})
  | DELETE_FROM_room_users_WHERE_last_active_lt cutoff =>
      let '(kept, n) := delete_where (λ r, lt_float (last_active r) cutoff) (room_users d) in
      ({| files := files d;
          message_history := message_history d;
          room_users := kept;
          user_permission_overrides := user_permission_overrides d;
          user_permission_futures := user_permission_futures d |},
       {| fetched := []; rowcount := n |})
  | INSERT_INTO_user_permission_overrides_SELECT_futures_WHERE_at_le now =>
      let selected := filter (λ f, at_ f ≤ now) (user_permission_futures d) in
      ({| files := files d;
          message_history := message_history d;
          room_users := room_users d;
          user_permission_overrides :=
            foldl upsert (user_permission_overrides d) selected;
          user_permission_futures := user_permission_futures d |},
       {| fetched := []; rowcount := Z.of_nat (length selected) |})
  | DELETE_FROM_user_permission_futures_WHERE_at_le now =>
      let '(kept, n) := delete_where (λ f, at_ f ≤ now) (user_permission_futures d) in
      ({| files := files d;
          message_history := message_history d;
          room_users := room_users d;
          user_permission_overrides := user_permission_overrides d;
          user_permission_futures := kept |},
       {| fetched := []; rowcount := n |})
  end.

(** ** The world *)

(** [config.MESSAGE_HISTORY_PRUNE_THRESHOLD] and
    [config.ROOM_ACTIVE_PRUNE_THRESHOLD], both in days.  The module
    [sogs/config.py] is not part of the sources at hand; the two values are
    taken as floats that hold a whole number of days. *)
Record Config : Type :=
  { MESSAGE_HISTORY_PRUNE_THRESHOLD : Z;
    ROOM_ACTIVE_PRUNE_THRESHOLD : Z }.

(** What sits at a path of the upload directory: a blob that [os.unlink]
    removes, or something it refuses with an [OSError] (a directory, a file
    in a read-only directory, ...). *)
Inductive dirent : Type :=
| Blob
| Refuses (strerror : string).

Inductive level : Type := DEBUG | INFO | WARNING | ERROR.

(** The two loggers the module writes to: [app.logger] and the root logger
    behind [logging.info]. *)
Inductive logger_name : Type := app_logger | logging.

(** The log lines of the module, with the values that fill their
    placeholders. *)
Inductive logline : Type :=
| Pruning_expired_items
| Pruned_files_msg_hist_room_activity_perm_updates (files msg_hist room_act perm_upd : Z)
| Periodic_database_cleanup_failed (e : exn)
| Unable_to_remove_expired_upload_from_disk (path : string) (e : exn)
| Pruned_expired_deleted_files (n : Z) (unlinked : option Z)
| Pruned_message_edit_deletion_records (count : Z)
| Prune_old_room_activity_records (count : Z)
| Applied_scheduled_user_permission_updates (num_applied : Z).

(** Everything the module does to the outside, in the order it happens. *)
Inductive event : Type :=
| Commit
| Rollback
| Unlink (path : string) (raised : option exn)
| Log (via : logger_name) (lvl : level) (msg : logline).

(** [clock n] is what the [n]-th call of [time.time()] returns, a float
    that holds a whole number of seconds, and [reads] counts the calls made
    so far.  [faults] is the fate of the coming
    [execute] calls: [Some msg] makes the call raise, [None] lets it run, and
    past the end of the list every call runs. *)
Record World : Type :=
  { db : Db;
    disk : gmap string dirent;
    config : Config;
    clock : nat → Z;
    reads : nat;
    faults : list (option string);
    trace : list event }.

Definition with_db (d : Db) (w : World) : World :=
  {| db := d; disk := disk w; config := config w; clock := clock w;
     reads := reads w; faults := faults w; trace := trace w |}.

Definition with_disk (fs : gmap string dirent) (w : World) : World :=
  {| db := db w; disk := fs; config := config w; clock := clock w;
     reads := reads w; faults := faults w; trace := trace w |}.

Definition with_reads (n : nat) (w : World) : World :=
  {| db := db w; disk := disk w; config := config w; clock := clock w;
     reads := n; faults := faults w; trace := trace w |}.

Definition with_faults (fl : list (option string)) (w : World) : World :=
  {| db := db w; disk := disk w; config := config w; clock := clock w;
     reads := reads w; faults := fl; trace := trace w |}.

Definition emit (ev : event) (w : World) : World :=
  {| db := db w; disk := disk w; config := config w; clock := clock w;
     reads := reads w; faults := faults w; trace := trace w ++ [ev] |}.

(** ** The monad: a raised exception or a value, and the world after *)

Definition M (A : Type) : Type := World → (exn + A) * World.

Definition ret {A} (a : A) : M A := λ w, (inr a, w).

Definition bind {A B} (c : M A) (k : A → M B) : M B :=
  λ w, match c w with
       | (inl e, w') => (inl e, w')
       | (inr a, w') => k a w'
       end.

Notation "x <- c ;; k" := (bind c (λ x, k))
  (at level 100, c at next level, right associativity).
Notation "c ;;; k" := (bind c (λ _, k))
  (at level 100, right associativity).

(** [try: c except Exception as e: h e]. *)
Definition try_except {A} (c : M A) (h : exn → M A) : M A :=
  λ w, match c w with
       | (inl e, w') => h e w'
       | (inr a, w') => (inr a, w')
       end.

(** ** The primitives the module calls *)

Definition time_time : M Z :=
  λ w, (inr (clock w (reads w)), with_reads (S (reads w)) w).

Definition get_config : M Config := λ w, (inr (config w), w).

Definition os_unlink (p : string) : M unit :=
  λ w, match disk w !! p with
       | None =>
           (inl (FileNotFoundError p),
            emit (Unlink p (Some (FileNotFoundError p))) w)
       | Some Blob =>
           (inr tt, emit (Unlink p None) (with_disk (delete p (disk w)) w))
       | Some (Refuses strerror) =>
           (inl (OSError strerror), emit (Unlink p (Some (OSError strerror))) w)
       end.

Definition log_to (via : logger_name) (lvl : level) (msg : logline) : M unit :=
  λ w, (inr tt, emit (Log via lvl msg) w).

(** The error the coming [execute] call is fated to raise, if any. *)
Definition next_fault (w : World) : option string :=
  match faults w with
  | Some msg :: _ => Some msg
  | _ => None
  end.

(** [cur.execute(s, (param,))]. *)
Definition cur_execute (s : statement) : M Cursor :=
  λ w, let w' := with_faults (tail (faults w)) w in
       match next_fault w with
       | Some msg => (inl (DatabaseError msg), w')
       | None =>
           let '(d, cur) := run_statement s (db w) in
           (inr cur, with_db d w')
       end.

(** Modelled from the spec: [db.tx()], of the module [sogs/db.py] that is not
    part of the sources at hand.  The block runs as one atomic unit: when it
    ends normally (a [return] inside it included) its writes are committed,
    when it raises they are rolled back and the error goes on to the
    caller. *)
Definition db_tx {A} (body : M A) : M A :=
  λ w, match body w with
       | (inl e, w') => (inl e, emit Rollback (with_db (db w) w'))
       | (inr a, w') => (inr a, emit Commit w')
       end.

(** How a [with] block ends: by a [return] of the function, or by running
    off its end with the locals the code after it reads. *)
Inductive block (R L : Type) : Type :=
| Returned (r : R)
| Fell_through (locals : L).
Arguments Returned {R L} r.
Arguments Fell_through {R L} locals.

Definition len {A} (l : list A) : Z := Z.of_nat (length l).

(** ** cleanup.py *)

(** Cleanup interval, in seconds. *)
Definition INTERVAL : Z := 10.

(** The body of [for path in to_remove], from [unlink_count] to its next
    value. *)
Definition unlink_one (p : string) (unlink_count : Z) : M Z :=
  try_except
    (os_unlink p ;;; ret (unlink_count + 1))
    (λ e, match e with
          | FileNotFoundError _ => ret unlink_count
          | _ =>
              log_to app_logger ERROR (Unable_to_remove_expired_upload_from_disk p e) ;;;
              ret unlink_count
          end).

Fixpoint unlink_all (to_remove : list string) (unlink_count : Z) : M Z :=
  match to_remove with
  | [] => ret unlink_count
  | p :: rest =>
      unlink_count <- unlink_one p unlink_count ;;
      unlink_all rest unlink_count
  end.

Definition prune_files : M Z :=
  blk <- db_tx (
    now <- time_time ;;
    cur <- cur_execute (SELECT_path_FROM_files_WHERE_expiry_lt now) ;;
    let to_remove := fetched cur in
    match to_remove with
    | [] => ret (Returned 0)
    | _ :: _ =>
        cur_execute (DELETE_FROM_files_WHERE_expiry_le now) ;;;
        ret (Fell_through to_remove)
    end) ;;
  match blk with
  | Returned r => ret r
  | Fell_through to_remove =>
      unlink_count <- unlink_all to_remove 0 ;;
      log_to app_logger INFO
        (Pruned_expired_deleted_files (len to_remove)
           (if decide (unlink_count ≠ len to_remove)
            then Some unlink_count else None)) ;;;
      ret (len to_remove)
  end.

Definition prune_message_history : M Z :=
  count <- db_tx (
    now <- time_time ;;
    cfg <- get_config ;;
    cur <- cur_execute
      (DELETE_FROM_message_history_WHERE_replaced_lt
         (float_sub now (float_mul (MESSAGE_HISTORY_PRUNE_THRESHOLD cfg) 86400))) ;;
    ret (rowcount cur)) ;;
  (if decide (count > 0)
   then log_to app_logger INFO (Pruned_message_edit_deletion_records count)
   else ret tt) ;;;
  ret count.

Definition prune_room_activity : M Z :=
  count <- db_tx (
    now <- time_time ;;
    cfg <- get_config ;;
    cur <- cur_execute
      (DELETE_FROM_room_users_WHERE_last_active_lt
         (float_sub now (float_mul (ROOM_ACTIVE_PRUNE_THRESHOLD cfg) 86400))) ;;
    ret (rowcount cur)) ;;
  (if decide (count > 0)
   then log_to app_logger INFO (Prune_old_room_activity_records count)
   else ret tt) ;;;
  ret count.

Definition apply_permission_updates : M Z :=
  blk <- db_tx (
    now <- time_time ;;
    cur <- cur_execute
      (INSERT_INTO_user_permission_overrides_SELECT_futures_WHERE_at_le now) ;;
    let num_applied := rowcount cur in
    if decide (num_applied = 0) then ret (Returned 0)
    else
      cur_execute (DELETE_FROM_user_permission_futures_WHERE_at_le now) ;;;
      ret (Fell_through num_applied)) ;;
  match blk with
  | Returned r => ret r
  | Fell_through num_applied =>
      log_to logging INFO (Applied_scheduled_user_permission_updates num_applied) ;;;
      ret num_applied
  end.

(** [with app.app_context()] only makes [app.logger] and the store handle
    available to the block and is left out. *)
Definition cleanup : M unit :=
  try_except
    (log_to app_logger DEBUG Pruning_expired_items ;;;
     files <- prune_files ;;
     msg_hist <- prune_message_history ;;
     room_act <- prune_room_activity ;;
     perm_upd <- apply_permission_updates ;;
     log_to app_logger DEBUG
       (Pruned_files_msg_hist_room_activity_perm_updates
          files msg_hist room_act perm_upd))
    (λ e, log_to app_logger WARNING (Periodic_database_cleanup_failed e)).

(** What a computation returns or raises in a world, and the world it
    leaves. *)
Definition result {A} (c : M A) (w : World) : exn + A := (c w).1.
Definition after {A} (c : M A) (w : World) : World := (c w).2.

(** The store raises nothing during the coming [k] calls of [execute]. *)
Definition no_fault (k : nat) (w : World) : Prop :=
  Forall (λ o, o = None) (take k (faults w)).

(** ** Reading the trace *)

(** The events a run from [w] to [w'] added. *)
Definition new_events (w w' : World) : list event :=
  drop (length (trace w)) (trace w').

(** The paths [os.unlink] was called on, in call order. *)
Definition unlink_calls (evs : list event) : list string :=
  omap (λ ev, match ev with Unlink p _ => Some p | _ => None end) evs.

Definition is_removal (ev : event) : bool :=
  match ev with
  | Unlink _ None => true
  | _ => false
  end.

(** How many calls of [os.unlink] removed a blob. *)
Definition removals (evs : list event) : Z := len (filter is_removal evs).

(** ** Names for the worlds and rows the statements speak of *)

(** The world once the coming [execute] has used up its fate, and once the
    clock has been read. *)
Definition spent (w : World) : World := with_faults (tail (faults w)) w.
Definition timed (w : World) : World := with_reads (S (reads w)) w.

(** The rows the SELECT of [prune_files] finds in [w]. *)
Definition expired (w : World) : list FileRow :=
  filter (λ r, expiry r < clock w (reads w)) (files (db w)).

(** The store after the DELETE of [prune_files]. *)
Definition files_deleted (now : Z) (d : Db) : Db :=
  (run_statement (DELETE_FROM_files_WHERE_expiry_le now) d).1.

(** The world at the end of the [with] block of [prune_files] when it ran
    both statements. *)
Definition files_committed (w : World) : World :=
  emit Commit
    (with_db (files_deleted (clock w (reads w)) (db w))
       (spent (with_db (db w) (spent (timed w))))).

(** The bound [prune_message_history] passes to its DELETE in [w]. *)
Definition history_cutoff (w : World) : float :=
  float_sub (clock w (reads w))
    (float_mul (MESSAGE_HISTORY_PRUNE_THRESHOLD (config w)) 86400).

(** The bound [prune_room_activity] passes to its DELETE in [w]. *)
Definition activity_cutoff (w : World) : float :=
  float_sub (clock w (reads w))
    (float_mul (ROOM_ACTIVE_PRUNE_THRESHOLD (config w)) 86400).

(** The futures the INSERT ... SELECT of [apply_permission_updates] picks up
    in [w]. *)
Definition due (w : World) : list Future :=
  filter (λ f, at_ f ≤ clock w (reads w)) (user_permission_futures (db w)).

(** The store after the upsert of [apply_permission_updates]. *)
Definition upserted (w : World) : Db :=
  (run_statement
     (INSERT_INTO_user_permission_overrides_SELECT_futures_WHERE_at_le
        (clock w (reads w))) (db w)).1.

(** The conflict target of a future. *)
Definition key (f : Future) : Z * Z := (room f, user f).

(** The four flag columns, to speak of them one at a time. *)
Inductive column : Type := Read | Write | Upload | Banned.

(** The value a row has in a column. *)
Definition flag (c : column) (fl : Flags) : option bool :=
  match c with
  | Read => read fl
  | Write => write fl
  | Upload => upload fl
  | Banned => banned fl
  end.

(** The row [upsert] writes for a future, given the live row it met. *)
Definition upsert_row (live : option Flags) (f : Future) : Flags :=
  match live with
  | None => perms f
  | Some row =>
      {| read := COALESCE (read (perms f)) (read row);
         write := COALESCE (write (perms f)) (write row);
         upload := COALESCE (upload (perms f)) (upload row);
         banned := COALESCE (banned (perms f)) (banned row) |}
  end.

(** The world once [cleanup] has logged that it starts. *)
Definition started (w : World) : World :=
  emit (Log app_logger DEBUG Pruning_expired_items) w.

(** The warning [cleanup] logs for the exception it caught. *)
Definition warning (e : exn) : event :=
  Log app_logger WARNING (Periodic_database_cleanup_failed e).

(** ** Worlds to run the code on *)

(** Thirty days of message history, sixty of room activity. *)
Definition example_config : Config :=
  {| MESSAGE_HISTORY_PRUNE_THRESHOLD := 30; ROOM_ACTIVE_PRUNE_THRESHOLD := 60 |}.

(** A world with the given store and disk in which the clock shows [now] at
    the first reading and one second more at each later one. *)
Definition world_at (now : Z) (d : Db) (fs : gmap string dirent)
    (fl : list (option string)) : World :=
  {| db := d; disk := fs; config := example_config;
     clock := λ n, now + Z.of_nat n; reads := 0; faults := fl; trace := [] |}.

(** A store with nothing but the given [files] rows. *)
Definition only_files (fl : list FileRow) : Db :=
  {| files := fl; message_history := []; room_users := [];
     user_permission_overrides := ∅; user_permission_futures := [] |}.

(** Five rows of [files]; at time 1000 the first three are expired, the
    fourth is not and the fifth expires at that very second. *)
Definition file_A : FileRow := {| path := "A"; expiry := 10 |}.
Definition file_B : FileRow := {| path := "B"; expiry := 20 |}.
Definition file_C : FileRow := {| path := "C"; expiry := 30 |}.
Definition file_D : FileRow := {| path := "D"; expiry := 5000 |}.
Definition file_E : FileRow := {| path := "E"; expiry := 1000 |}.

(** Three expired files and one that is not, at time 1000; the blob of B is
    no longer on disk. *)
Definition scenario : World :=
  world_at 1000 (only_files [file_A; file_B; file_C; file_D])
    {[ "A" := Blob; "C" := Blob; "D" := Blob ]} [].

(** The same store, where the blob of C cannot be removed. *)
Definition scenario_refused : World :=
  world_at 1000 (only_files [file_A; file_B; file_C; file_D])
    {[ "A" := Blob; "C" := Refuses "Permission denied"; "D" := Blob ]} [].

(** One expired file and one that expires at this very second. *)
Definition scenario_boundary : World :=
  world_at 1000 (only_files [file_A; file_E]) {[ "A" := Blob; "E" := Blob ]} [].

(** Nothing expired, and one file that expires at this very second. *)
Definition scenario_only_boundary : World :=
  world_at 1000 (only_files [file_E; file_D]) {[ "D" := Blob; "E" := Blob ]} [].

(** At time 10000000 the history cutoff (30 days) is 7408000 and the activity
    cutoff (60 days) is 4816000; each table has a row one second older than
    its cutoff, a row at the cutoff and a younger row. *)
Definition scenario_retention : World :=
  world_at 10000000
    {| files := [];
       message_history :=
         [ {| message := 1; replaced := 7407999 |};
           {| message := 2; replaced := 7408000 |};
           {| message := 3; replaced := 9000000 |} ];
       room_users :=
         [ {| ru_room := 1; ru_user := 7; last_active := 4815999 |};
           {| ru_room := 1; ru_user := 8; last_active := 4816000 |};
           {| ru_room := 2; ru_user := 7; last_active := 9999999 |} ];
       user_permission_overrides := ∅;
       user_permission_futures := [] |}
    ∅ [].

(** The live row of user 7 in room 1 has read set and write unset; one due
    future for that row, one due future for a pair without a live row, and
    one future that is not due yet. *)
Definition future_1_7 : Future :=
  {| room := 1; user := 7; at_ := 900;
     perms := {| read := None; write := Some false;
                 upload := None; banned := Some true |} |}.
Definition future_2_9 : Future :=
  {| room := 2; user := 9; at_ := 1000;
     perms := {| read := None; write := None;
                 upload := Some true; banned := None |} |}.
Definition future_later : Future :=
  {| room := 1; user := 7; at_ := 2000;
     perms := {| read := Some false; write := None;
                 upload := None; banned := None |} |}.

(** The store those futures and that live row sit in, at time 1000. *)
Definition scenario_permissions : World :=
  world_at 1000
    {| files := []; message_history := []; room_users := [];
       user_permission_overrides :=
         {[ (1, 7) := {| read := Some true; write := None;
                         upload := Some false; banned := None |} ]};
       user_permission_futures := [future_1_7; future_later; future_2_9] |}
    ∅ [].

(** The store of [scenario], fated to raise on the third [execute]: the one
    of [prune_message_history]. *)
Definition scenario_locked : World :=
  world_at 1000 (only_files [file_A; file_B; file_C; file_D])
    {[ "A" := Blob; "C" := Blob; "D" := Blob ]}
    [None; None; Some "database is locked"].

(** The store of [scenario], fated to raise on the second [execute]: the
    DELETE of [prune_files]. *)
Definition scenario_delete_fails : World :=
  world_at 1000 (only_files [file_A; file_B; file_C; file_D])
    {[ "A" := Blob; "C" := Blob; "D" := Blob ]}
    [None; Some "disk I/O error"].

(** A second expired row for the blob of A. *)
Definition file_A_again : FileRow := {| path := "A"; expiry := 15 |}.

(** Two expired rows that share one blob. *)
Definition scenario_shared_blob : World :=
  world_at 1000 (only_files [file_A; file_A_again; file_D])
    {[ "A" := Blob; "D" := Blob ]} [].

(** Three expired rows whose blobs are all on disk. *)
Definition scenario_all_present : World :=
  world_at 1000 (only_files [file_A; file_B; file_C; file_D])
    {[ "A" := Blob; "B" := Blob; "C" := Blob; "D" := Blob ]} [].

(** The world of [scenario_permissions] with the rows of
    [user_permission_futures] in another order. *)
Definition scenario_permissions_reordered : World :=
  world_at 1000
    {| files := []; message_history := []; room_users := [];
       user_permission_overrides :=
         user_permission_overrides (db scenario_permissions);
       user_permission_futures := [future_2_9; future_later; future_1_7] |}
    ∅ [].

(** A clock so far ahead that floats are 256 seconds apart just below it,
    a window of one day, and a row between the rounded and the exact
    cutoff. *)
Definition scenario_far_future : World :=
  {| db := {| files := [];
              message_history :=
                [ {| message := 1; replaced := 2 ^ 61 - 86528 |} ];
              room_users := [];
              user_permission_overrides := ∅;
              user_permission_futures := [] |};
     disk := ∅;
     config := {| MESSAGE_HISTORY_PRUNE_THRESHOLD := 1;
                  ROOM_ACTIVE_PRUNE_THRESHOLD := 1 |};
     clock := λ _, 2 ^ 61; reads := 0; faults := []; trace := [] |}.

(** * Proofs *)

(** ** Floats that hold whole seconds *)

(** Up to 2^53 in magnitude every integer is a float. *)
Lemma binary64_exact z : Z.abs z ≤ 2 ^ 53 → binary64 z = finite z.
Proof.
  intros Hz.
  destruct (decide (Z.abs z = 2 ^ 53)) as [Heq|Hne].
  { change (2 ^ 53) with 9007199254740992 in Heq.
    assert (z = 9007199254740992 ∨ z = - 9007199254740992) as [->| ->]
      by lia; vm_compute; reflexivity. }
  assert (Z.log2 (Z.abs z) - 52 ≤ 0) as Hlog.
  { destruct (decide (Z.abs z = 0)) as [->|Hpos]; [simpl; lia|].
    assert (Z.log2 (Z.abs z) < 53); [|lia].
    apply Z.log2_lt_pow2; lia. }
  assert (2 ^ 53 < 2 ^ 1024) by (apply Z.pow_lt_mono_r; lia).
  unfold binary64. rewrite Z.max_l by lia.
  change (2 ^ 0) with 1. rewrite Z.div_1_r, Z.mod_1_r.
  destruct (decide (2 * 0 < 1)); [|lia].
  rewrite decide_True by lia. f_equal. lia.
Qed.

(** Where the clock, the window and their difference are at most 2^53 in
    magnitude, the float subtraction of the window is the exact one. *)
Lemma float_sub_mul_exact now days :
  Z.abs now ≤ 2 ^ 53 → Z.abs (days * 86400) ≤ 2 ^ 53 →
  Z.abs (now - days * 86400) ≤ 2 ^ 53 →
  float_sub now (float_mul days 86400) = finite (now - days * 86400).
Proof.
  intros _ Hw Hd. unfold float_mul. rewrite (binary64_exact _ Hw). simpl.
  by apply binary64_exact.
Qed.

(** Beyond 2^53 the subtraction rounds: a day before 2^61 seconds is the
    float 2^61 - 86528, and [prune_message_history] keeps a row at that
    value. *)
Lemma float_sub_rounds :
  float_sub (2 ^ 61) (float_mul 1 86400) = finite (2 ^ 61 - 86528) ∧
  result prune_message_history scenario_far_future = inr 0 ∧
  message_history (db (after prune_message_history scenario_far_future))
    = message_history (db scenario_far_future).
Proof. repeat split; vm_compute; reflexivity. Qed.

Lemma new_events_app w w' evs :
  trace w' = trace w ++ evs → new_events w w' = evs.
Proof. intros E. unfold new_events. rewrite E. apply drop_app_length. Qed.

Lemma len_nil_iff {A} (l : list A) : len l = 0 ↔ l = [].
Proof.
  unfold len. destruct l; simpl; split; intros; try done; lia.
Qed.

(** ** The unlink loop *)

Lemma unlink_one_missing p k w :
  disk w !! p = None →
  unlink_one p k w = (inr k, emit (Unlink p (Some (FileNotFoundError p))) w).
Proof. intros E. unfold unlink_one, try_except, bind, os_unlink. by rewrite E. Qed.

Lemma unlink_one_blob p k w :
  disk w !! p = Some Blob →
  unlink_one p k w =
    (inr (k + 1), emit (Unlink p None) (with_disk (delete p (disk w)) w)).
Proof. intros E. unfold unlink_one, try_except, bind, os_unlink. by rewrite E. Qed.

Lemma unlink_one_refused p k w strerror :
  disk w !! p = Some (Refuses strerror) →
  unlink_one p k w =
    (inr k,
     emit (Log app_logger ERROR
             (Unable_to_remove_expired_upload_from_disk p (OSError strerror)))
       (emit (Unlink p (Some (OSError strerror))) w)).
Proof. intros E. unfold unlink_one, try_except, bind, os_unlink. by rewrite E. Qed.

(** The three ways one turn of the loop can go. *)
Lemma unlink_one_cases p k w :
  (disk w !! p = None ∧
   unlink_one p k w = (inr k, emit (Unlink p (Some (FileNotFoundError p))) w))
  ∨ (disk w !! p = Some Blob ∧
     unlink_one p k w =
       (inr (k + 1), emit (Unlink p None) (with_disk (delete p (disk w)) w)))
  ∨ (∃ strerror, disk w !! p = Some (Refuses strerror) ∧
     unlink_one p k w =
       (inr k,
        emit (Log app_logger ERROR
                (Unable_to_remove_expired_upload_from_disk p (OSError strerror)))
          (emit (Unlink p (Some (OSError strerror))) w))).
Proof.
  destruct (disk w !! p) as [[|strerror]|] eqn:E.
  - right; left. eauto using unlink_one_blob.
  - right; right. eauto using unlink_one_refused.
  - left. eauto using unlink_one_missing.
Qed.

Lemma unlink_all_cons p rest k w :
  unlink_all (p :: rest) k w =
    unlink_all rest (match (unlink_one p k w).1 with inr k' => k' | inl _ => k end)
      (unlink_one p k w).2.
Proof.
  simpl. unfold bind.
  destruct (unlink_one_cases p k w) as [[_ ->]|[[_ ->]|(m & _ & ->)]]; done.
Qed.

(** The loop touches nothing but the disk and the trace. *)
Lemma unlink_all_frame l : ∀ k w,
  let w' := after (unlink_all l k) w in
  db w' = db w ∧ config w' = config w ∧ clock w' = clock w ∧
  reads w' = reads w ∧ faults w' = faults w.
Proof.
  induction l as [|p rest IH]; intros k w; [done|].
  unfold after. rewrite unlink_all_cons.
  destruct (unlink_one_cases p k w) as [[_ E]|[[_ E]|(m & _ & E)]];
    rewrite E; simpl;
    match goal with |- context [unlink_all rest ?k' ?w1] =>
      pose proof (IH k' w1) as H end; unfold after in H; simpl in H; exact H.
Qed.

(** The loop never creates a file, and leaves alone what is not on its
    list. *)
Lemma unlink_all_disk l : ∀ k w,
  let w' := after (unlink_all l k) w in
  (∀ p, disk w !! p = None → disk w' !! p = None) ∧
  (∀ p, p ∉ l → disk w' !! p = disk w !! p).
Proof.
  induction l as [|q rest IH]; intros k w; [done|].
  unfold after. rewrite unlink_all_cons.
  destruct (unlink_one_cases q k w) as [[_ E]|[[_ E]|(m & _ & E)]];
    rewrite E; simpl;
    match goal with |- context [unlink_all rest ?k' ?w1] =>
      destruct (IH k' w1) as [IH1 IH2] end; unfold after in *; simpl in *;
    (split; intros p Hp;
       [apply IH1|apply not_elem_of_cons in Hp as [Hq Hp]; rewrite IH2 by done]);
    try done.
  - destruct (decide (q = p)) as [->|]; [apply lookup_delete_eq|].
    by rewrite lookup_delete_ne.
  - by rewrite lookup_delete_ne.
Qed.

(** What the loop leaves in the trace: it calls [os.unlink] on every path
    of its list, in order and whatever the earlier calls did; it counts the
    calls that removed a blob, which is the number of blobs the disk lost;
    it logs nothing but the [OSError]s; and a path of the list is gone
    afterwards unless [os.unlink] raised an [OSError] on it. *)
Lemma unlink_all_trace l : ∀ k w,
  let w' := after (unlink_all l k) w in
  ∃ evs,
    trace w' = trace w ++ evs ∧
    result (unlink_all l k) w = inr (k + removals evs) ∧
    unlink_calls evs = l ∧
    Z.of_nat (size (disk w')) + removals evs = Z.of_nat (size (disk w)) ∧
    (Commit ∉ evs) ∧ (Rollback ∉ evs) ∧
    (∀ via lvl msg, Log via lvl msg ∈ evs →
       ∃ p strerror,
         p ∈ l ∧ Unlink p (Some (OSError strerror)) ∈ evs ∧
         via = app_logger ∧ lvl = ERROR ∧
         msg = Unable_to_remove_expired_upload_from_disk p (OSError strerror)) ∧
    (∀ p, p ∈ l →
       disk w' !! p = None ∨
       ∃ strerror,
         Unlink p (Some (OSError strerror)) ∈ evs ∧
         Log app_logger ERROR
           (Unable_to_remove_expired_upload_from_disk p (OSError strerror)) ∈ evs) ∧
    (∀ p strerror, Unlink p (Some (OSError strerror)) ∈ evs →
       Log app_logger ERROR
         (Unable_to_remove_expired_upload_from_disk p (OSError strerror)) ∈ evs).
Proof.
  induction l as [|q rest IH]; intros k w.
  - exists []. simpl. unfold result, after, removals, len; simpl.
    rewrite app_nil_r, Z.add_0_r.
    repeat split; try done; try lia; by intros * ?%elem_of_nil.
  - pose proof (unlink_all_disk rest) as Hdisk.
    unfold after, result in *. rewrite unlink_all_cons.
    destruct (unlink_one_cases q k w) as [[Hq E]|[[Hq E]|(m & Hq & E)]];
      rewrite E; simpl;
      match goal with |- context [unlink_all rest ?k' ?w1] =>
        destruct (IH k' w1)
          as (evs & Ht & Hr & Hc & Hsz & Hco & Hro & Hlog & Hgone & Herr);
        destruct (Hdisk k' w1) as [Hnone _]
      end; simpl in *.
    + exists (Unlink q (Some (FileNotFoundError q)) :: evs).
      rewrite Ht, <- app_assoc. simpl. split; [done|].
      split; [by rewrite Hr|]. split; [by rewrite Hc|]. split; [done|].
      split; [by intros [?|?]%elem_of_cons|].
      split; [by intros [?|?]%elem_of_cons|]. split.
      * intros via lvl msg [?|Hin]%elem_of_cons; [done|].
        destruct (Hlog _ _ _ Hin) as (p & e & ? & ? & ?).
        exists p, e. rewrite !elem_of_cons. tauto.
      * split.
        { intros p [->|Hp]%elem_of_cons; [left; by apply Hnone|].
          destruct (Hgone p Hp) as [?|(s & ? & ?)]; [by left|right].
          exists s. rewrite !elem_of_cons. tauto. }
        intros p s [?|Hin]%elem_of_cons; [done|]. right. eauto.
    + exists (Unlink q None :: evs).
      rewrite Ht, <- app_assoc. simpl. split; [done|].
      split; [rewrite Hr; f_equal; unfold removals, len; simpl; lia|].
      split; [by rewrite Hc|].
      split.
      { rewrite map_size_delete_Some in Hsz by done.
        assert (size (disk w) ≠ 0%nat)
          by (apply map_size_ne_0_lookup_2 with q; by rewrite Hq).
        unfold removals, len in *. simpl. lia. }
      split; [by intros [?|?]%elem_of_cons|].
      split; [by intros [?|?]%elem_of_cons|]. split.
      * intros via lvl msg [?|Hin]%elem_of_cons; [done|].
        destruct (Hlog _ _ _ Hin) as (p & e & ? & ? & ?).
        exists p, e. rewrite !elem_of_cons. tauto.
      * split.
        { intros p [->|Hp]%elem_of_cons; [left; apply Hnone, lookup_delete_eq|].
          destruct (Hgone p Hp) as [?|(s & ? & ?)]; [by left|right].
          exists s. rewrite !elem_of_cons. tauto. }
        intros p s [?|Hin]%elem_of_cons; [done|]. right. eauto.
    + exists (Unlink q (Some (OSError m))
              :: Log app_logger ERROR
                   (Unable_to_remove_expired_upload_from_disk q (OSError m))
              :: evs).
      rewrite Ht, <- !app_assoc. simpl. split; [done|].
      split; [by rewrite Hr|]. split; [by rewrite Hc|]. split; [done|].
      split; [by intros [?|[?|?]%elem_of_cons]%elem_of_cons|].
      split; [by intros [?|[?|?]%elem_of_cons]%elem_of_cons|]. split.
      * intros via lvl msg [?|[Heq|Hin]%elem_of_cons]%elem_of_cons; [done| |].
        -- exists q, m. inversion Heq. rewrite !elem_of_cons. tauto.
        -- destruct (Hlog _ _ _ Hin) as (p & e & ? & ? & ?).
           exists p, e. rewrite !elem_of_cons. tauto.
      * split.
        { intros p [->|Hp]%elem_of_cons.
          { right. exists m. rewrite !elem_of_cons. tauto. }
          destruct (Hgone p Hp) as [?|(s & ? & ?)]; [by left|right].
          exists s. rewrite !elem_of_cons. tauto. }
        intros p s [Heq|[?|Hin]%elem_of_cons]%elem_of_cons; [|done|].
        -- inversion Heq. right. left.
        -- do 2 right. eauto.
Qed.

(** ** Stepping through a transaction *)

Ltac run_monad :=
  unfold bind, db_tx, try_except, time_time, get_config, cur_execute, log_to, ret;
  simpl.

Local Arguments unlink_all : simpl never.

Lemma no_fault_next k w : no_fault (S k) w → next_fault w = None.
Proof.
  unfold no_fault, next_fault. destruct (faults w) as [|[msg|] rest]; try done.
  simpl. by intros [? _]%Forall_cons.
Qed.

Lemma no_fault_spent k w : no_fault (S k) w → no_fault k (spent w).
Proof.
  unfold no_fault, spent. simpl. destruct (faults w) as [|o rest]; simpl.
  - by rewrite take_nil.
  - by intros [_ ?]%Forall_cons.
Qed.

Lemma no_fault_nil k w : faults w = [] → no_fault k w.
Proof. unfold no_fault. intros ->. by rewrite take_nil. Qed.

(** ** prune_files *)

Lemma prune_files_select_fault w msg :
  next_fault w = Some msg →
  prune_files w =
    (inl (DatabaseError msg), emit Rollback (with_db (db w) (spent (timed w)))).
Proof.
  intros F. unfold prune_files. run_monad.
  change (next_fault (with_reads _ w)) with (next_fault w). rewrite F. done.
Qed.

Lemma prune_files_nothing w :
  next_fault w = None → expired w = [] →
  prune_files w = (inr 0, emit Commit (with_db (db w) (spent (timed w)))).
Proof.
  intros F E. unfold prune_files. run_monad.
  change (next_fault (with_reads _ w)) with (next_fault w). rewrite F. simpl.
  fold (expired w). rewrite E. done.
Qed.

Lemma prune_files_delete_fault w msg :
  next_fault w = None → expired w ≠ [] → next_fault (spent w) = Some msg →
  prune_files w =
    (inl (DatabaseError msg),
     emit Rollback (with_db (db w) (spent (with_db (db w) (spent (timed w)))))).
Proof.
  intros F E F2. unfold prune_files. run_monad.
  change (next_fault (with_reads _ w)) with (next_fault w). rewrite F. simpl.
  fold (expired w). destruct (expired w) as [|r rs]; [done|]. simpl.
  change (next_fault (with_db _ _)) with (next_fault (spent w)). rewrite F2. done.
Qed.

Lemma prune_files_some w :
  next_fault w = None → expired w ≠ [] → next_fault (spent w) = None →
  let to_remove := path <$> expired w in
  ∃ unlink_count,
    result (unlink_all to_remove 0) (files_committed w) = inr unlink_count ∧
    prune_files w =
      (inr (len to_remove),
       emit (Log app_logger INFO
               (Pruned_expired_deleted_files (len to_remove)
                  (if decide (unlink_count ≠ len to_remove)
                   then Some unlink_count else None)))
         (after (unlink_all to_remove 0) (files_committed w))).
Proof.
  intros F E F2. unfold prune_files. run_monad.
  change (next_fault (with_reads _ w)) with (next_fault w). rewrite F. simpl.
  fold (expired w). destruct (expired w) as [|r rs] eqn:Ex; [done|]. simpl.
  change (next_fault (with_db _ _)) with (next_fault (spent w)). rewrite F2.
  unfold files_committed, files_deleted, spent, timed, result, after. simpl.
  match goal with |- context [unlink_all ?l ?k ?W] =>
    destruct (unlink_all_trace l k W) as (evs & _ & Hr & _);
    unfold result in Hr; destruct (unlink_all l k W) as [[e|k'] w']
  end; [done|].
  exists k'. done.
Qed.

(** The two ways [prune_files] can return, with everything the later proofs
    need about the world it leaves. *)
Lemma prune_files_returns w n :
  result prune_files w = inr n →
  let w' := after prune_files w in
  let to_remove := path <$> expired w in
  n = len (expired w) ∧ reads w' = S (reads w) ∧
  ((expired w = [] ∧ db w' = db w ∧ disk w' = disk w ∧
    trace w' = trace w ++ [Commit])
   ∨ (expired w ≠ [] ∧ db w' = files_deleted (clock w (reads w)) (db w) ∧
      (∀ p, disk w !! p = None → disk w' !! p = None) ∧
      (∀ p, p ∉ to_remove → disk w' !! p = disk w !! p) ∧
      ∃ evs,
        trace w' =
          trace w ++ Commit :: evs ++
            [Log app_logger INFO
               (Pruned_expired_deleted_files (len to_remove)
                  (if decide (removals evs ≠ len to_remove)
                   then Some (removals evs) else None))] ∧
        unlink_calls evs = to_remove ∧
        Z.of_nat (size (disk w')) + removals evs = Z.of_nat (size (disk w)) ∧
        (Commit ∉ evs) ∧ (Rollback ∉ evs) ∧
        (∀ via lvl msg, Log via lvl msg ∈ evs →
           ∃ p strerror,
             p ∈ to_remove ∧ Unlink p (Some (OSError strerror)) ∈ evs ∧
             via = app_logger ∧ lvl = ERROR ∧
             msg = Unable_to_remove_expired_upload_from_disk p (OSError strerror)) ∧
        (∀ p, p ∈ to_remove →
           disk w' !! p = None ∨
           ∃ strerror,
             Unlink p (Some (OSError strerror)) ∈ evs ∧
             Log app_logger ERROR
               (Unable_to_remove_expired_upload_from_disk p (OSError strerror)) ∈ evs) ∧
        (∀ p strerror, Unlink p (Some (OSError strerror)) ∈ evs →
           Log app_logger ERROR
             (Unable_to_remove_expired_upload_from_disk p (OSError strerror)) ∈ evs))).
Proof.
  unfold result, after. intros R.
  destruct (next_fault w) as [msg|] eqn:F.
  { by rewrite (prune_files_select_fault w msg F) in R. }
  destruct (decide (expired w = [])) as [E|E].
  { rewrite (prune_files_nothing w F E) in *. simpl in *.
    rewrite E. split; [by inversion R|]. split; [done|]. by left. }
  destruct (next_fault (spent w)) as [msg|] eqn:F2.
  { by rewrite (prune_files_delete_fault w msg F E F2) in R. }
  destruct (prune_files_some w F E F2) as (k & Hk & Heq).
  rewrite Heq in *. simpl in *.
  destruct (unlink_all_frame (path <$> expired w) 0 (files_committed w))
    as (Hdb & _ & _ & Hreads & _).
  destruct (unlink_all_disk (path <$> expired w) 0 (files_committed w))
    as (Hnone & Hother).
  destruct (unlink_all_trace (path <$> expired w) 0 (files_committed w))
    as (evs & Ht & Hr & Hcalls & Hsz & Hco & Hro & Hlog & Hgone & Herr).
  rewrite Hk in Hr. injection Hr as Hr. rewrite Z.add_0_l in Hr. subst k.
  split; [inversion R; unfold len; by rewrite length_fmap|].
  split; [by rewrite Hreads|].
  right. split; [done|]. split; [by rewrite Hdb|].
  split; [done|]. split; [done|].
  exists evs. split; [|done].
  rewrite Ht. simpl. by rewrite <- !app_assoc.
Qed.

(** With a store that raises nothing on the two statements, [prune_files]
    returns. *)
Lemma prune_files_total w :
  no_fault 2 w → ∃ n, result prune_files w = inr n.
Proof.
  intros H. pose proof (no_fault_next _ _ H) as F.
  pose proof (no_fault_next _ _ (no_fault_spent _ _ H)) as F2.
  unfold result. destruct (decide (expired w = [])) as [E|E].
  - rewrite (prune_files_nothing w F E). eauto.
  - destruct (prune_files_some w F E F2) as (k & _ & ->). eauto.
Qed.

(** When [prune_files] raises, the store is as before. *)
Lemma prune_files_raises w e :
  result prune_files w = inl e → db (after prune_files w) = db w.
Proof.
  unfold result, after. intros R.
  destruct (next_fault w) as [msg|] eqn:F.
  { by rewrite (prune_files_select_fault w msg F). }
  destruct (decide (expired w = [])) as [E|E].
  { by rewrite (prune_files_nothing w F E) in R. }
  destruct (next_fault (spent w)) as [msg|] eqn:F2.
  { by rewrite (prune_files_delete_fault w msg F E F2). }
  destruct (prune_files_some w F E F2) as (k & _ & Heq). by rewrite Heq in R.
Qed.

Lemma files_deleted_files now d :
  files (files_deleted now d) = filter (λ r, ¬ expiry r ≤ now) (files d).
Proof. done. Qed.

Lemma prune_files_result w :
  result prune_files w =
    match next_fault w with
    | Some msg => inl (DatabaseError msg)
    | None =>
        if decide (expired w = []) then inr 0
        else match next_fault (spent w) with
             | Some msg => inl (DatabaseError msg)
             | None => inr (len (expired w))
             end
    end.
Proof.
  unfold result. destruct (next_fault w) as [msg|] eqn:F.
  { by rewrite (prune_files_select_fault w msg F). }
  destruct (decide (expired w = [])) as [E|E].
  { by rewrite (prune_files_nothing w F E). }
  destruct (next_fault (spent w)) as [msg|] eqn:F2.
  { by rewrite (prune_files_delete_fault w msg F E F2). }
  destruct (prune_files_some w F E F2) as (k & _ & ->). simpl.
  unfold len. by rewrite length_fmap.
Qed.

Lemma prune_files_db w :
  db (after prune_files w) =
    match result prune_files w with
    | inr _ =>
        if decide (expired w = []) then db w
        else files_deleted (clock w (reads w)) (db w)
    | inl _ => db w
    end.
Proof.
  destruct (result prune_files w) as [e|n] eqn:R.
  - by apply prune_files_raises with e.
  - destruct (prune_files_returns w n R) as (_ & _ & [(E & ? & _)|(E & ? & _)]);
      by rewrite decide_bool_decide, ?(bool_decide_eq_true_2 _ E),
           ?(bool_decide_eq_false_2 _ E).
Qed.

(** What is on disk has no say in what [prune_files] returns and does to the
    store. *)
Lemma prune_files_disk_blind fs w :
  result prune_files (with_disk fs w) = result prune_files w ∧
  db (after prune_files (with_disk fs w)) = db (after prune_files w).
Proof.
  assert (result prune_files (with_disk fs w) = result prune_files w) as R
    by (by rewrite !prune_files_result).
  split; [done|]. by rewrite !prune_files_db, R.
Qed.

Lemma expired_nil w :
  expired w = [] ↔ ∀ r, r ∈ files (db w) → ¬ expiry r < clock w (reads w).
Proof.
  unfold expired. split.
  - intros E r Hr Hlt. by apply (filter_nil_not_elem_of _ _ r E).
  - intros H. destruct (filter _ _) as [|r rs] eqn:E; [done|].
    assert (r ∈ r :: rs) as Hin by left.
    rewrite <- E in Hin. apply list_elem_of_filter in Hin as [? ?].
    by destruct (H r).
Qed.

Lemma expired_cons w :
  expired w ≠ [] ↔ ∃ r, r ∈ files (db w) ∧ expiry r < clock w (reads w).
Proof.
  rewrite expired_nil. split.
  - intros H. destruct (expired w) as [|r rs] eqn:E.
    + destruct H. by apply expired_nil.
    + exists r. assert (r ∈ expired w) as Hin by (rewrite E; left).
      apply list_elem_of_filter in Hin. tauto.
  - intros (r & Hr & Hlt) H. by apply (H r).
Qed.

Lemma unlink_calls_split p evs :
  p ∈ unlink_calls evs → ∃ before raised later, evs = before ++ Unlink p raised :: later.
Proof.
  unfold unlink_calls. intros (ev & Hev & Hp)%list_elem_of_omap.
  destruct ev as [| |q raised|]; try done. injection Hp as ->.
  apply list_elem_of_split in Hev as (before & later & ->). eauto.
Qed.

Lemma length_filter_split {A} (P : A → Prop) `{∀ x, Decision (P x)} (l : list A) :
  length l = (length (filter P l) + length (filter (λ x, ¬ P x) l))%nat.
Proof.
  induction l as [|x l IH]; [done|].
  rewrite !filter_cons. destruct (decide (P x)), (decide (¬ P x));
    simpl; try tauto; lia.
Qed.

Lemma length_filter_le_lt_eq (now : Z) (l : list FileRow) :
  length (filter (λ r, expiry r ≤ now) l) =
    (length (filter (λ r, (expiry r < now)%Z) l) +
     length (filter (λ r, expiry r = now) l))%nat.
Proof.
  induction l as [|x l IH]; [done|].
  rewrite !filter_cons.
  destruct (decide (expiry x ≤ now)), (decide (expiry x < now)),
    (decide (expiry x = now)); simpl; lia.
Qed.

(** * The file pruner *)

(** C1.  After a run of [prune_files] that returns, no row of [files] has an
    expiry strictly before the [now] the run read; for the path of every
    such row [os.unlink] was called after the commit; the blob at that path
    is gone unless the call raised an [OSError] (any error but "not found");
    nothing was rolled back; and what the run returns and leaves in the
    store is the same whatever is on disk. *)
Theorem prune_files_removes_expired w n :
  result prune_files w = inr n →
  let now := clock w (reads w) in
  let w' := after prune_files w in
  (∀ r, r ∈ files (db w') → ¬ expiry r < now) ∧
  (∀ r, r ∈ files (db w) → expiry r < now →
     (∃ before raised later,
        new_events w w' = before ++ Unlink (path r) raised :: later ∧
        Commit ∈ before) ∧
     (disk w' !! path r = None ∨
      ∃ strerror,
        Unlink (path r) (Some (OSError strerror)) ∈ new_events w w')) ∧
  (Rollback ∉ new_events w w') ∧
  (∀ fs, result prune_files (with_disk fs w) = inr n ∧
         db (after prune_files (with_disk fs w)) = db w').
Proof.
  intros R now w'.
  destruct (prune_files_returns w n R) as (Hn & _ & Hcases).
  fold w' in Hcases. split; [|split; [|split]].
  - intros r Hr Hlt.
    destruct Hcases as [(E & Hdb & _)|(_ & Hdb & _)]; rewrite Hdb in Hr.
    + by apply (proj1 (expired_nil w) E r).
    + rewrite files_deleted_files in Hr.
      apply list_elem_of_filter in Hr as [Hr _]. unfold now in *. lia.
  - intros r Hr Hlt.
    destruct Hcases as [(E & _)|(_ & _ & _ & _ & evs & Ht & Hcalls & _ & _ & _ & _ & Hgone & _)].
    { by destruct (proj1 (expired_nil w) E r). }
    assert (path r ∈ path <$> expired w) as Hp.
    { apply list_elem_of_fmap_2, list_elem_of_filter. done. }
    rewrite (new_events_app _ _ _ Ht). split.
    + rewrite <- Hcalls in Hp.
      destruct (unlink_calls_split _ _ Hp) as (before & raised & later & ->).
      exists (Commit :: before), raised, (later ++ [Log app_logger INFO
        (Pruned_expired_deleted_files (len (path <$> expired w))
           (if decide (removals (before ++ Unlink (path r) raised :: later)
                       ≠ len (path <$> expired w))
            then Some (removals (before ++ Unlink (path r) raised :: later))
            else None))]).
      split; [|left]. simpl. by rewrite <- app_assoc.
    + destruct (Hgone _ Hp) as [?|(s & Hs & _)]; [by left|right].
      exists s. rewrite elem_of_cons, elem_of_app. tauto.
  - destruct Hcases as [(_ & _ & _ & Ht)|(_ & _ & _ & _ & evs & Ht & _ & _ & _ & Hro & Hlog)];
      rewrite (new_events_app _ _ _ Ht).
    + by intros [?|?%elem_of_nil]%elem_of_cons.
    + intros [?|[?|[?|?%elem_of_nil]%elem_of_cons]%elem_of_app]%elem_of_cons; done.
  - intros fs. destruct (prune_files_disk_blind fs w) as [-> ->]. done.
Qed.

Lemma prune_files_removes_expired_witness :
  result prune_files scenario_refused = inr 3 ∧
  (disk (after prune_files scenario_refused) !! path file_C = None ∨
   ∃ strerror,
     Unlink (path file_C) (Some (OSError strerror))
       ∈ new_events scenario_refused (after prune_files scenario_refused)).
Proof.
  assert (result prune_files scenario_refused = inr 3) as R
    by (vm_compute; reflexivity).
  split; [exact R|].
  apply (prune_files_removes_expired scenario_refused 3 R).
  - vm_compute. do 2 right. left.
  - vm_compute. reflexivity.
Defined.

(** C3, as stated, fails: with nothing strictly expired the run returns
    before its DELETE, and a row that expires at [now] stays. *)
Lemma prune_files_keeps_lone_boundary_row :
  result prune_files scenario_only_boundary = inr 0 ∧
  file_E ∈ files (db scenario_only_boundary) ∧
  expiry file_E = clock scenario_only_boundary (reads scenario_only_boundary) ∧
  file_E ∈ files (db (after prune_files scenario_only_boundary)).
Proof.
  split; [vm_compute; reflexivity|].
  split; [vm_compute; left|].
  split; [vm_compute; reflexivity|].
  vm_compute. left.
Qed.

(** C3, amended.  A row whose expiry equals the [now] of a run that returns
    is deleted by that run exactly when the table also holds a row with an
    expiry strictly before [now]; when it holds none, the run returns 0 and
    the table is left as it was. *)
Theorem prune_files_boundary_row w n r :
  result prune_files w = inr n →
  r ∈ files (db w) →
  expiry r = clock w (reads w) →
  let now := clock w (reads w) in
  let w' := after prune_files w in
  (r ∉ files (db w') ↔ ∃ r0, r0 ∈ files (db w) ∧ expiry r0 < now) ∧
  ((∀ r0, r0 ∈ files (db w) → ¬ expiry r0 < now) →
     n = 0 ∧ files (db w') = files (db w)).
Proof.
  intros R Hr Hnow now w'.
  destruct (prune_files_returns w n R) as (Hn & _ & Hcases). fold w' in Hcases.
  destruct Hcases as [(E & Hdb & _)|(E & Hdb & _)]; rewrite Hdb.
  - split; [|by rewrite Hn, E]. split; [done|].
    intros (r0 & Hr0 & Hlt). by destruct (proj1 (expired_nil w) E r0).
  - rewrite files_deleted_files. split.
    + split; [intros _; by apply expired_cons|]. intros _.
      rewrite list_elem_of_filter. unfold now in *. lia.
    + intros H. by apply expired_nil in H.
Qed.

Lemma prune_files_boundary_row_witness :
  (result prune_files scenario_boundary = inr 1 ∧
   file_E ∈ files (db scenario_boundary) ∧
   expiry file_E = clock scenario_boundary (reads scenario_boundary)) ∧
  file_E ∉ files (db (after prune_files scenario_boundary)).
Proof.
  assert (result prune_files scenario_boundary = inr 1) as R
    by (vm_compute; reflexivity).
  assert (file_E ∈ files (db scenario_boundary)) as Hin
    by (vm_compute; right; left).
  assert (expiry file_E = clock scenario_boundary (reads scenario_boundary))
    as Hnow by (vm_compute; reflexivity).
  split; [done|].
  apply (prune_files_boundary_row scenario_boundary 1 file_E R Hin Hnow).
  exists file_A. split; [vm_compute; left|vm_compute; reflexivity].
Defined.

(** C9.  Given a store that raises nothing on its two statements,
    [prune_files] returns.  What it returns is the number of rows of [files]
    with an expiry strictly before the [now] it read.  When there is no such
    row that number is 0 and the run deletes nothing and touches no file.
    With three expired rows and a fourth that expires later it returns 3 and
    leaves the fourth row alone in the table. *)
Theorem prune_files_count w :
  let now := clock w (reads w) in
  let w' := after prune_files w in
  (no_fault 2 w → ∃ n, result prune_files w = inr n) ∧
  (∀ n, result prune_files w = inr n →
     n = len (filter (λ r, expiry r < now) (files (db w))) ∧
     ((∀ r, r ∈ files (db w) → ¬ expiry r < now) →
        n = 0 ∧ db w' = db w ∧ disk w' = disk w ∧ new_events w w' = [Commit]) ∧
     (∀ a b c d,
        files (db w) ≡ₚ [a; b; c; d] →
        expiry a < now → expiry b < now → expiry c < now → now < expiry d →
        n = 3 ∧ files (db w') = [d])).
Proof.
  intros now w'. split; [apply prune_files_total|].
  intros n R.
  destruct (prune_files_returns w n R) as (Hn & _ & Hcases). fold w' in Hcases.
  split; [done|]. split.
  - intros H%expired_nil.
    destruct Hcases as [(_ & Hdb & Hdisk & Ht)|(E & _)]; [|done].
    rewrite Hn, H, (new_events_app _ _ _ Ht). done.
  - intros a b c d Hperm Ha Hb Hc Hd.
    assert (expired w ≡ₚ [a; b; c]) as Hex.
    { unfold expired. rewrite Hperm. fold now. rewrite !filter_cons, filter_nil.
      repeat case_decide; try done; lia. }
    split; [rewrite Hn; unfold len; by rewrite Hex|].
    destruct Hcases as [(E & _)|(_ & Hdb & _)].
    { rewrite E in Hex. by apply Permutation_nil_cons in Hex. }
    rewrite Hdb, files_deleted_files. apply Permutation_singleton_r.
    rewrite Hperm. fold now. rewrite !filter_cons, filter_nil.
    repeat case_decide; try done; lia.
Qed.

Lemma prune_files_count_witness :
  result prune_files scenario = inr 3 ∧
  files (db (after prune_files scenario)) = [file_D].
Proof.
  destruct (prune_files_count scenario) as [Htotal Hcount].
  destruct Htotal as [n R]; [apply no_fault_nil; reflexivity|].
  destruct (Hcount n R) as (Hn & _ & Hscn).
  destruct (Hscn file_A file_B file_C file_D) as [-> Hrows];
    [reflexivity|vm_compute; reflexivity..|].
  split; [exact R|exact Hrows].
Defined.

(** C10.  The count [prune_files] returns and the number of rows the run
    deleted differ by the rows that expire exactly at [now]: once a row is
    strictly expired, those rows are deleted too but not counted, so the
    count is strictly below the number deleted when there is one; and with
    no strictly expired row the run returns 0 and deletes nothing, a row
    that expires exactly at [now] included. *)
Theorem prune_files_count_below_deleted w n :
  result prune_files w = inr n →
  let now := clock w (reads w) in
  let w' := after prune_files w in
  let deleted := len (files (db w)) - len (files (db w')) in
  ((∃ r0, r0 ∈ files (db w) ∧ expiry r0 < now) →
     deleted = n + len (filter (λ r, expiry r = now) (files (db w))) ∧
     ∀ r, r ∈ files (db w) → expiry r = now →
          n < deleted ∧ r ∉ files (db w')) ∧
  ((∀ r0, r0 ∈ files (db w) → ¬ expiry r0 < now) →
     n = 0 ∧ deleted = 0 ∧
     ∀ r, r ∈ files (db w) → expiry r = now → r ∈ files (db w')).
Proof.
  intros R now w' deleted.
  destruct (prune_files_returns w n R) as (Hn & _ & Hcases). fold w' in Hcases.
  split.
  - intros Hex%expired_cons.
    destruct Hcases as [(E & _)|(_ & Hdb & _)]; [done|].
    assert (deleted = n + len (filter (λ r, expiry r = now) (files (db w))))
      as Hdel.
    { unfold deleted. rewrite Hdb, files_deleted_files, Hn. unfold len, expired.
      pose proof (length_filter_split (λ r, expiry r ≤ clock w (reads w))
                    (files (db w))).
      pose proof (length_filter_le_lt_eq (clock w (reads w)) (files (db w))).
      unfold now. lia. }
    split; [done|]. intros r Hr Hnow. split.
    + assert (r ∈ filter (λ r, expiry r = now) (files (db w))) as Hin
        by (by apply list_elem_of_filter).
      rewrite Hdel. unfold len.
      destruct (filter (λ r, expiry r = now) (files (db w))); simpl; [|lia].
      by apply elem_of_nil in Hin.
    + rewrite Hdb, files_deleted_files, list_elem_of_filter. unfold now in *. lia.
  - intros H%expired_nil.
    destruct Hcases as [(_ & Hdb & _)|(E & _)]; [|done].
    unfold deleted. rewrite Hdb, Hn, H. split; [done|]. split; [lia|done].
Qed.

Lemma prune_files_count_below_deleted_witness :
  result prune_files scenario_boundary = inr 1 ∧
  1 < len (files (db scenario_boundary))
      - len (files (db (after prune_files scenario_boundary))).
Proof.
  assert (result prune_files scenario_boundary = inr 1) as R
    by (vm_compute; reflexivity).
  split; [exact R|].
  destruct (prune_files_count_below_deleted scenario_boundary 1 R) as [Hsome _].
  destruct Hsome as [_ Hrow].
  { exists file_A. split; [vm_compute; left|vm_compute; reflexivity]. }
  apply (Hrow file_E); [vm_compute; right; left|vm_compute; reflexivity].
Defined.

(** C8.  One turn of the unlink loop never raises: a missing file leaves the
    count as it was and logs nothing, an [OSError] leaves the count as it was
    and logs an error.  For a run of [prune_files] that found expired rows:
    [os.unlink] is called on every selected path in turn, whatever the
    earlier calls did; the store is the one the transaction committed; the
    only log lines of the loop are the errors, one for each [OSError]; the
    value returned is the number of selected rows; and the closing line
    reports that number, with the number of blobs removed (which is how many
    the disk lost) added only when the two differ.  With B's blob missing
    the run returns 3 and reports 2 unlinked. *)
Theorem prune_files_unlink_failures :
  (∀ p k w, disk w !! p = None →
     result (unlink_one p k) w = inr k ∧
     disk (after (unlink_one p k) w) = disk w ∧
     new_events w (after (unlink_one p k) w)
       = [Unlink p (Some (FileNotFoundError p))]) ∧
  (∀ p k w strerror, disk w !! p = Some (Refuses strerror) →
     result (unlink_one p k) w = inr k ∧
     disk (after (unlink_one p k) w) = disk w ∧
     new_events w (after (unlink_one p k) w)
       = [Unlink p (Some (OSError strerror));
          Log app_logger ERROR
            (Unable_to_remove_expired_upload_from_disk p (OSError strerror))]) ∧
  (∀ w n, result prune_files w = inr n →
     (∃ r0, r0 ∈ files (db w) ∧ expiry r0 < clock w (reads w)) →
     let w' := after prune_files w in
     let selected := filter (λ r, expiry r < clock w (reads w)) (files (db w)) in
     n = len selected ∧
     files (db w')
       = filter (λ r, ¬ expiry r ≤ clock w (reads w)) (files (db w)) ∧
     ∃ evs,
       new_events w w' =
         Commit :: evs ++
           [Log app_logger INFO
              (Pruned_expired_deleted_files n
                 (if decide (removals evs ≠ n)
                  then Some (removals evs) else None))] ∧
       unlink_calls evs = path <$> selected ∧
       removals evs = Z.of_nat (size (disk w)) - Z.of_nat (size (disk w')) ∧
       (∀ via lvl msg, Log via lvl msg ∈ evs →
          ∃ p strerror,
            Unlink p (Some (OSError strerror)) ∈ evs ∧
            via = app_logger ∧ lvl = ERROR ∧
            msg = Unable_to_remove_expired_upload_from_disk p (OSError strerror)) ∧
       (∀ p strerror, Unlink p (Some (OSError strerror)) ∈ evs →
          Log app_logger ERROR
            (Unable_to_remove_expired_upload_from_disk p (OSError strerror)) ∈ evs)) ∧
  (result prune_files scenario = inr 3 ∧
   last (trace (after prune_files scenario))
     = Some (Log app_logger INFO (Pruned_expired_deleted_files 3 (Some 2)))).
Proof.
  split; [|split; [|split]].
  - intros p k w Hp. unfold result, after.
    rewrite (unlink_one_missing p k w Hp). simpl.
    split; [done|]. split; [done|]. by apply new_events_app.
  - intros p k w strerror Hp. unfold result, after.
    rewrite (unlink_one_refused p k w strerror Hp). simpl.
    split; [done|]. split; [done|]. apply new_events_app. simpl.
    by rewrite <- app_assoc.
  - intros w n R Hex%expired_cons w' selected.
    destruct (prune_files_returns w n R) as (Hn & _ & Hcases). fold w' in Hcases.
    destruct Hcases
      as [(E & _)|(_ & Hdb & _ & _ & evs & Ht & Hcalls & Hsz & _ & _ & Hlog & _ & Herr)];
      [done|].
    split; [done|]. split; [by rewrite Hdb|].
    assert (len (path <$> expired w) = n) as Hlen
      by (rewrite Hn; unfold len; by rewrite length_fmap).
    rewrite Hlen in Ht.
    exists evs. split; [by apply new_events_app|].
    split; [done|]. split; [lia|]. split.
    + intros via lvl msg Hin.
      destruct (Hlog _ _ _ Hin) as (p & s & _ & ? & ?). eauto.
    + done.
  - split; vm_compute; reflexivity.
Qed.

Lemma prune_files_unlink_failures_witness :
  result prune_files scenario_refused = inr 3 ∧
  files (db (after prune_files scenario_refused)) = [file_D].
Proof.
  assert (result prune_files scenario_refused = inr 3) as R
    by (vm_compute; reflexivity).
  split; [exact R|].
  destruct prune_files_unlink_failures as (_ & _ & Hrun & _).
  destruct (Hrun scenario_refused 3 R) as (_ & -> & _).
  - exists file_A. split; [vm_compute; left|vm_compute; reflexivity].
  - vm_compute. reflexivity.
Defined.

(** * The history and room activity pruners *)

Lemma prune_message_history_fault w msg :
  next_fault w = Some msg →
  prune_message_history w =
    (inl (DatabaseError msg), emit Rollback (with_db (db w) (spent (timed w)))).
Proof.
  intros F. unfold prune_message_history. run_monad.
  change (next_fault (with_reads _ w)) with (next_fault w). rewrite F. done.
Qed.

Lemma prune_message_history_runs w :
  next_fault w = None →
  let deleted := filter (λ r, lt_float (replaced r) (history_cutoff w)) (message_history (db w)) in
  let committed :=
    emit Commit
      (with_db
         (run_statement
            (DELETE_FROM_message_history_WHERE_replaced_lt (history_cutoff w))
            (db w)).1
         (spent (timed w))) in
  prune_message_history w =
    (inr (len deleted),
     if decide (len deleted > 0)
     then emit (Log app_logger INFO
                  (Pruned_message_edit_deletion_records (len deleted))) committed
     else committed).
Proof.
  intros F. unfold prune_message_history. run_monad.
  change (next_fault (with_reads _ w)) with (next_fault w). rewrite F. simpl.
  unfold history_cutoff, len. by case_decide.
Qed.

Lemma prune_room_activity_fault w msg :
  next_fault w = Some msg →
  prune_room_activity w =
    (inl (DatabaseError msg), emit Rollback (with_db (db w) (spent (timed w)))).
Proof.
  intros F. unfold prune_room_activity. run_monad.
  change (next_fault (with_reads _ w)) with (next_fault w). rewrite F. done.
Qed.

Lemma prune_room_activity_runs w :
  next_fault w = None →
  let deleted := filter (λ r, lt_float (last_active r) (activity_cutoff w)) (room_users (db w)) in
  let committed :=
    emit Commit
      (with_db
         (run_statement
            (DELETE_FROM_room_users_WHERE_last_active_lt (activity_cutoff w))
            (db w)).1
         (spent (timed w))) in
  prune_room_activity w =
    (inr (len deleted),
     if decide (len deleted > 0)
     then emit (Log app_logger INFO
                  (Prune_old_room_activity_records (len deleted))) committed
     else committed).
Proof.
  intros F. unfold prune_room_activity. run_monad.
  change (next_fault (with_reads _ w)) with (next_fault w). rewrite F. simpl.
  unfold activity_cutoff, len. by case_decide.
Qed.

Lemma prune_message_history_returns w n :
  result prune_message_history w = inr n →
  let w' := after prune_message_history w in
  n = len (filter (λ r, lt_float (replaced r) (history_cutoff w)) (message_history (db w))) ∧
  message_history (db w')
    = filter (λ r, ¬ lt_float (replaced r) (history_cutoff w)) (message_history (db w)) ∧
  files (db w') = files (db w) ∧ room_users (db w') = room_users (db w) ∧
  user_permission_overrides (db w') = user_permission_overrides (db w) ∧
  user_permission_futures (db w') = user_permission_futures (db w) ∧
  reads w' = S (reads w) ∧ clock w' = clock w ∧ config w' = config w ∧
  disk w' = disk w.
Proof.
  unfold result, after. intros R.
  destruct (next_fault w) as [msg|] eqn:F.
  { by rewrite (prune_message_history_fault w msg F) in R. }
  rewrite (prune_message_history_runs w F) in *. simpl in *.
  split; [by inversion R|]. by case_decide.
Qed.

Lemma prune_room_activity_returns w n :
  result prune_room_activity w = inr n →
  let w' := after prune_room_activity w in
  n = len (filter (λ r, lt_float (last_active r) (activity_cutoff w)) (room_users (db w))) ∧
  room_users (db w')
    = filter (λ r, ¬ lt_float (last_active r) (activity_cutoff w)) (room_users (db w)) ∧
  files (db w') = files (db w) ∧ message_history (db w') = message_history (db w) ∧
  user_permission_overrides (db w') = user_permission_overrides (db w) ∧
  user_permission_futures (db w') = user_permission_futures (db w) ∧
  reads w' = S (reads w) ∧ clock w' = clock w ∧ config w' = config w ∧
  disk w' = disk w.
Proof.
  unfold result, after. intros R.
  destruct (next_fault w) as [msg|] eqn:F.
  { by rewrite (prune_room_activity_fault w msg F) in R. }
  rewrite (prune_room_activity_runs w F) in *. simpl in *.
  split; [by inversion R|]. by case_decide.
Qed.

Lemma prune_message_history_total w :
  no_fault 1 w → ∃ n, result prune_message_history w = inr n.
Proof.
  intros F%no_fault_next. unfold result.
  rewrite (prune_message_history_runs w F). eauto.
Qed.

Lemma prune_room_activity_total w :
  no_fault 1 w → ∃ n, result prune_room_activity w = inr n.
Proof.
  intros F%no_fault_next. unfold result.
  rewrite (prune_room_activity_runs w F). eauto.
Qed.

(** C5.  Given a store that raises nothing on their one statement,
    [prune_message_history] and [prune_room_activity] return.  A run of
    [prune_message_history] that returns keeps exactly the rows of
    [message_history] whose [replaced] is not strictly before the cutoff
    [now - MESSAGE_HISTORY_PRUNE_THRESHOLD * 86400], as the code computes it
    in floats: a row at that cutoff stays, and the value returned is the
    number of rows deleted.  Where the clock, the window and their
    difference are at most 2^53 seconds in magnitude the float cutoff is the
    exact difference: a row at [now - MESSAGE_HISTORY_PRUNE_THRESHOLD * 86400]
    stays and a row one second older goes.  The same holds of
    [prune_room_activity] with [last_active] and
    [ROOM_ACTIVE_PRUNE_THRESHOLD]. *)
Theorem prune_history_and_activity_exact w :
  (no_fault 1 w → ∃ n, result prune_message_history w = inr n) ∧
  (no_fault 1 w → ∃ n, result prune_room_activity w = inr n) ∧
  (∀ n, result prune_message_history w = inr n →
     let now := clock w (reads w) in
     let window := MESSAGE_HISTORY_PRUNE_THRESHOLD (config w) * 86400 in
     let cutoff :=
       float_sub now (float_mul (MESSAGE_HISTORY_PRUNE_THRESHOLD (config w)) 86400) in
     let before := message_history (db w) in
     let kept := message_history (db (after prune_message_history w)) in
     kept = filter (λ r, ¬ lt_float (replaced r) cutoff) before ∧
     (∀ r, r ∈ kept ↔ r ∈ before ∧ ¬ lt_float (replaced r) cutoff) ∧
     (∀ r, r ∈ before → cutoff = finite (replaced r) → r ∈ kept) ∧
     n = len (filter (λ r, lt_float (replaced r) cutoff) before) ∧
     n = len before - len kept ∧
     (Z.abs now ≤ 2 ^ 53 → Z.abs window ≤ 2 ^ 53 →
      Z.abs (now - window) ≤ 2 ^ 53 →
        cutoff = finite (now - window) ∧
        kept = filter (λ r, ¬ replaced r < now - window) before ∧
        (∀ r, r ∈ before → replaced r = now - window → r ∈ kept) ∧
        (∀ r, r ∈ before → replaced r = now - window - 1 → r ∉ kept) ∧
        n = len (filter (λ r, replaced r < now - window) before))) ∧
  (∀ n, result prune_room_activity w = inr n →
     let now := clock w (reads w) in
     let window := ROOM_ACTIVE_PRUNE_THRESHOLD (config w) * 86400 in
     let cutoff :=
       float_sub now (float_mul (ROOM_ACTIVE_PRUNE_THRESHOLD (config w)) 86400) in
     let before := room_users (db w) in
     let kept := room_users (db (after prune_room_activity w)) in
     kept = filter (λ r, ¬ lt_float (last_active r) cutoff) before ∧
     (∀ r, r ∈ kept ↔ r ∈ before ∧ ¬ lt_float (last_active r) cutoff) ∧
     (∀ r, r ∈ before → cutoff = finite (last_active r) → r ∈ kept) ∧
     n = len (filter (λ r, lt_float (last_active r) cutoff) before) ∧
     n = len before - len kept ∧
     (Z.abs now ≤ 2 ^ 53 → Z.abs window ≤ 2 ^ 53 →
      Z.abs (now - window) ≤ 2 ^ 53 →
        cutoff = finite (now - window) ∧
        kept = filter (λ r, ¬ last_active r < now - window) before ∧
        (∀ r, r ∈ before → last_active r = now - window → r ∈ kept) ∧
        (∀ r, r ∈ before → last_active r = now - window - 1 → r ∉ kept) ∧
        n = len (filter (λ r, last_active r < now - window) before))).
Proof.
  split; [apply prune_message_history_total|].
  split; [apply prune_room_activity_total|]. split.
  - intros n R now window cutoff before kept.
    destruct (prune_message_history_returns w n R) as (Hn & Hkept & _).
    fold before kept in Hkept. change (history_cutoff w) with cutoff in *.
    fold before in Hn. rewrite Hkept.
    split; [done|]. split; [|split; [|split; [|split]]].
    + intros r. rewrite list_elem_of_filter. tauto.
    + intros r Hr Heq. apply list_elem_of_filter. split; [|done].
      rewrite Heq. simpl. lia.
    + done.
    + rewrite Hn. unfold len.
      pose proof (length_filter_split (λ r, lt_float (replaced r) cutoff) before).
      lia.
    + intros H1 H2 H3.
      pose proof (float_sub_mul_exact now _ H1 H2 H3) as Hc.
      fold cutoff window in Hc. rewrite Hn, Hc. simpl.
      split; [done|]. split; [done|]. split; [|split; [|done]].
      * intros r Hr Heq. apply list_elem_of_filter. split; [lia|done].
      * intros r Hr Heq [Hge _]%list_elem_of_filter. lia.
  - intros n R now window cutoff before kept.
    destruct (prune_room_activity_returns w n R) as (Hn & Hkept & _).
    fold before kept in Hkept. change (activity_cutoff w) with cutoff in *.
    fold before in Hn. rewrite Hkept.
    split; [done|]. split; [|split; [|split; [|split]]].
    + intros r. rewrite list_elem_of_filter. tauto.
    + intros r Hr Heq. apply list_elem_of_filter. split; [|done].
      rewrite Heq. simpl. lia.
    + done.
    + rewrite Hn. unfold len.
      pose proof (length_filter_split (λ r, lt_float (last_active r) cutoff) before).
      lia.
    + intros H1 H2 H3.
      pose proof (float_sub_mul_exact now _ H1 H2 H3) as Hc.
      fold cutoff window in Hc. rewrite Hn, Hc. simpl.
      split; [done|]. split; [done|]. split; [|split; [|done]].
      * intros r Hr Heq. apply list_elem_of_filter. split; [lia|done].
      * intros r Hr Heq [Hge _]%list_elem_of_filter. lia.
Qed.

Lemma prune_history_and_activity_exact_witness :
  (result prune_message_history scenario_retention = inr 1 ∧
   message_history (db (after prune_message_history scenario_retention))
     = [ {| message := 2; replaced := 7408000 |};
         {| message := 3; replaced := 9000000 |} ]) ∧
  (result prune_room_activity scenario_retention = inr 1 ∧
   room_users (db (after prune_room_activity scenario_retention))
     = [ {| ru_room := 1; ru_user := 8; last_active := 4816000 |};
         {| ru_room := 2; ru_user := 7; last_active := 9999999 |} ]).
Proof.
  destruct (prune_history_and_activity_exact scenario_retention)
    as (Ht1 & Ht2 & Hh & Ha).
  destruct Ht1 as [n1 R1]; [apply no_fault_nil; reflexivity|].
  destruct Ht2 as [n2 R2]; [apply no_fault_nil; reflexivity|].
  destruct (Hh n1 R1) as (_ & _ & _ & _ & _ & Hexact1).
  destruct (Ha n2 R2) as (_ & _ & _ & _ & _ & Hexact2).
  destruct Hexact1 as (_ & -> & _ & _ & Hn1); [vm_compute; discriminate..|].
  destruct Hexact2 as (_ & -> & _ & _ & Hn2); [vm_compute; discriminate..|].
  rewrite R1, R2, Hn1, Hn2. split; split; vm_compute; reflexivity.
Defined.

(** * The permission-future applier *)

Lemma apply_permission_updates_upsert_fault w msg :
  next_fault w = Some msg →
  apply_permission_updates w =
    (inl (DatabaseError msg), emit Rollback (with_db (db w) (spent (timed w)))).
Proof.
  intros F. unfold apply_permission_updates. run_monad.
  change (next_fault (with_reads _ w)) with (next_fault w). rewrite F. done.
Qed.

Lemma apply_permission_updates_nothing w :
  next_fault w = None → due w = [] →
  apply_permission_updates w =
    (inr 0, emit Commit (with_db (upserted w) (spent (timed w)))).
Proof.
  intros F E. unfold apply_permission_updates. run_monad.
  change (next_fault (with_reads _ w)) with (next_fault w). rewrite F. simpl.
  unfold upserted. simpl. fold (due w). rewrite E. done.
Qed.

Lemma apply_permission_updates_delete_fault w msg :
  next_fault w = None → due w ≠ [] → next_fault (spent w) = Some msg →
  apply_permission_updates w =
    (inl (DatabaseError msg),
     emit Rollback (with_db (db w) (spent (with_db (upserted w) (spent (timed w)))))).
Proof.
  intros F E F2. unfold apply_permission_updates. run_monad.
  change (next_fault (with_reads _ w)) with (next_fault w). rewrite F. simpl.
  fold (due w). case_decide as Hz.
  { destruct (due w); [done|simpl in Hz; lia]. }
  simpl. change (next_fault (with_db _ _)) with (next_fault (spent w)).
  rewrite F2. done.
Qed.

Lemma apply_permission_updates_some w :
  next_fault w = None → due w ≠ [] → next_fault (spent w) = None →
  apply_permission_updates w =
    (inr (len (due w)),
     emit (Log logging INFO (Applied_scheduled_user_permission_updates (len (due w))))
       (emit Commit
          (with_db
             (run_statement
                (DELETE_FROM_user_permission_futures_WHERE_at_le (clock w (reads w)))
                (upserted w)).1
             (spent (with_db (upserted w) (spent (timed w))))))).
Proof.
  intros F E F2. unfold apply_permission_updates. run_monad.
  change (next_fault (with_reads _ w)) with (next_fault w). rewrite F. simpl.
  fold (due w). case_decide as Hz.
  { destruct (due w); [done|simpl in Hz; lia]. }
  simpl. change (next_fault (with_db _ _)) with (next_fault (spent w)).
  rewrite F2. done.
Qed.

Lemma apply_permission_updates_returns w n :
  result apply_permission_updates w = inr n →
  let w' := after apply_permission_updates w in
  n = len (due w) ∧
  user_permission_overrides (db w')
    = foldl upsert (user_permission_overrides (db w)) (due w) ∧
  user_permission_futures (db w')
    = (if decide (due w = []) then user_permission_futures (db w)
       else filter (λ f, ¬ at_ f ≤ clock w (reads w)) (user_permission_futures (db w))) ∧
  files (db w') = files (db w) ∧ message_history (db w') = message_history (db w) ∧
  room_users (db w') = room_users (db w) ∧
  reads w' = S (reads w) ∧
  trace w' =
    trace w ++ Commit ::
      (if decide (due w = []) then []
       else [Log logging INFO (Applied_scheduled_user_permission_updates n)]).
Proof.
  unfold result, after. intros R.
  destruct (next_fault w) as [msg|] eqn:F.
  { by rewrite (apply_permission_updates_upsert_fault w msg F) in R. }
  destruct (decide (due w = [])) as [E|E].
  { rewrite (apply_permission_updates_nothing w F E) in *. simpl in *.
    fold (due w). rewrite E. split; [by inversion R|]. done. }
  destruct (next_fault (spent w)) as [msg|] eqn:F2.
  { by rewrite (apply_permission_updates_delete_fault w msg F E F2) in R. }
  rewrite (apply_permission_updates_some w F E F2) in *. simpl in *.
  injection R as <-. fold (due w). repeat split; try done.
  by rewrite <- app_assoc.
Qed.

Lemma apply_permission_updates_raises w e :
  result apply_permission_updates w = inl e →
  db (after apply_permission_updates w) = db w.
Proof.
  unfold result, after. intros R.
  destruct (next_fault w) as [msg|] eqn:F.
  { by rewrite (apply_permission_updates_upsert_fault w msg F). }
  destruct (decide (due w = [])) as [E|E].
  { by rewrite (apply_permission_updates_nothing w F E) in R. }
  destruct (next_fault (spent w)) as [msg|] eqn:F2.
  { by rewrite (apply_permission_updates_delete_fault w msg F E F2). }
  by rewrite (apply_permission_updates_some w F E F2) in R.
Qed.

Lemma apply_permission_updates_total w :
  no_fault 2 w → ∃ n, result apply_permission_updates w = inr n.
Proof.
  intros H. pose proof (no_fault_next _ _ H) as F.
  pose proof (no_fault_next _ _ (no_fault_spent _ _ H)) as F2.
  unfold result. destruct (decide (due w = [])) as [E|E].
  - rewrite (apply_permission_updates_nothing w F E). eauto.
  - rewrite (apply_permission_updates_some w F E F2). eauto.
Qed.

Lemma upsert_lookup ov f : upsert ov f !! key f = Some (upsert_row (ov !! key f) f).
Proof.
  unfold upsert, key. destruct (ov !! (room f, user f)) as [row|];
    simpl; by rewrite lookup_insert_eq.
Qed.

Lemma upsert_lookup_ne ov f k : k ≠ key f → upsert ov f !! k = ov !! k.
Proof.
  unfold upsert, key. intros Hk.
  destruct (ov !! (room f, user f)) as [row|]; by rewrite lookup_insert_ne.
Qed.

(** A batch seen from one key: only the futures of that key matter, and
    they are merged one after the other in table order. *)
Lemma foldl_upsert_lookup l : ∀ ov k,
  foldl upsert ov l !! k =
    foldl (λ o f, Some (upsert_row o f)) (ov !! k) (filter (λ f, key f = k) l).
Proof.
  induction l as [|f l IH]; intros ov k; [done|].
  simpl. rewrite IH, filter_cons. case_decide as Hk.
  - subst k. simpl. by rewrite upsert_lookup.
  - by rewrite upsert_lookup_ne.
Qed.

Lemma flag_upsert_row c live f :
  flag c (upsert_row live f) = COALESCE (flag c (perms f)) (live ≫= flag c).
Proof.
  destruct live as [row|], c; simpl; try done;
    by match goal with |- _ = COALESCE ?x None => destruct x end.
Qed.

(** Column by column, the last value of the chain that is not NULL wins, and
    the starting value stays when there is none. *)
Lemma chain_flag c l : ∀ o,
  foldl (λ o f, Some (upsert_row o f)) o l ≫= flag c =
    match last (omap (λ f, flag c (perms f)) l) with
    | Some b => Some b
    | None => o ≫= flag c
    end.
Proof.
  induction l as [|f l IH]; intros o; [done|].
  simpl. rewrite IH. simpl. rewrite flag_upsert_row.
  destruct (flag c (perms f)) as [b|]; simpl; [|done].
  rewrite last_cons. by destruct (last _).
Qed.

Lemma chain_is_Some l : ∀ o,
  is_Some (foldl (λ o f, Some (upsert_row o f)) o l) ↔ is_Some o ∨ l ≠ [].
Proof.
  induction l as [|f l IH]; intros o; simpl.
  - split; [by left|]. by intros [?|?].
  - rewrite IH. split; [by right|]. intros _. left. eauto.
Qed.

Lemma filter_nil_iff {A} (P : A → Prop) `{∀ x, Decision (P x)} (l : list A) :
  filter P l = [] ↔ ∀ x, x ∈ l → ¬ P x.
Proof.
  split.
  - intros E x Hx HP. by apply (filter_nil_not_elem_of _ _ x E).
  - intros Hall. destruct (filter P l) as [|x xs] eqn:E; [done|].
    assert (x ∈ filter P l) as Hin by (rewrite E; left).
    apply list_elem_of_filter in Hin as [HP Hx]. by destruct (Hall x).
Qed.

(** C2.  One row of the upsert: without a live row for its (room, user) the
    future's flags go in as they are, NULLs included; with one, each flag
    takes the future's value when that is not NULL and keeps the live value
    otherwise; rows of other keys are left alone.  A run of
    [apply_permission_updates] that returns does this for every future with
    [at] ≤ now, in table order: a key with a single due future ends up with
    that one merge, and in general each flag of a key ends up with the last
    value among its due futures that is not NULL, or the live value when
    there is none.  Merging read=NULL, write=false, banned=true into
    read=true, write=NULL gives read=true, write=false, banned=true and
    leaves upload as it was. *)
Theorem apply_permission_updates_merges :
  (∀ ov f,
     (ov !! key f = None → upsert ov f !! key f = Some (perms f)) ∧
     (∀ row, ov !! key f = Some row →
        ∃ row', upsert ov f !! key f = Some row' ∧
          ∀ c, (∀ b, flag c (perms f) = Some b → flag c row' = Some b) ∧
               (flag c (perms f) = None → flag c row' = flag c row)) ∧
     (∀ k, k ≠ key f → upsert ov f !! k = ov !! k)) ∧
  (∀ w n, result apply_permission_updates w = inr n →
     let now := clock w (reads w) in
     let live := user_permission_overrides (db w) in
     let live' := user_permission_overrides (db (after apply_permission_updates w)) in
     let batch := filter (λ f, at_ f ≤ now) (user_permission_futures (db w)) in
     live' = foldl upsert live batch ∧
     (∀ f, f ∈ batch → is_Some (live' !! key f)) ∧
     (∀ k, (∀ f, f ∈ batch → key f ≠ k) → live' !! k = live !! k) ∧
     (∀ f, filter (λ g, key g = key f) batch = [f] →
        (live !! key f = None → live' !! key f = Some (perms f)) ∧
        (∀ row, live !! key f = Some row →
           ∃ row', live' !! key f = Some row' ∧
             ∀ c, (∀ b, flag c (perms f) = Some b → flag c row' = Some b) ∧
                  (flag c (perms f) = None → flag c row' = flag c row))) ∧
     (∀ k c,
        live' !! k ≫= flag c =
          match last (omap (λ f, flag c (perms f))
                        (filter (λ f, key f = k) batch)) with
          | Some b => Some b
          | None => live !! k ≫= flag c
          end)) ∧
  (∀ ov f u b,
     ov !! key f = Some {| read := Some true; write := None;
                           upload := u; banned := b |} →
     perms f = {| read := None; write := Some false;
                  upload := None; banned := Some true |} →
     upsert ov f !! key f
       = Some {| read := Some true; write := Some false;
                 upload := u; banned := Some true |}).
Proof.
  assert (∀ live f row, live = Some row →
            ∀ c, (∀ b, flag c (perms f) = Some b →
                       flag c (upsert_row live f) = Some b) ∧
                 (flag c (perms f) = None →
                    flag c (upsert_row live f) = flag c row)) as Hrow.
  { intros live f row -> c. rewrite flag_upsert_row. simpl.
    split; [intros b ->|intros ->]; done. }
  split; [|split].
  - intros ov f. split; [|split].
    + intros E. by rewrite upsert_lookup, E.
    + intros row E. exists (upsert_row (ov !! key f) f).
      split; [apply upsert_lookup|by apply Hrow].
    + intros k Hk. by apply upsert_lookup_ne.
  - intros w n R now live live' batch.
    destruct (apply_permission_updates_returns w n R) as (_ & Hov & _).
    fold live live' in Hov. change (due w) with batch in Hov.
    split; [done|]. rewrite Hov. split; [|split; [|split]].
    + intros f Hf. rewrite foldl_upsert_lookup. apply chain_is_Some. right.
      intros E. apply (proj1 (filter_nil_iff _ _) E f); done.
    + intros k Hk. rewrite foldl_upsert_lookup.
      replace (filter (λ f, key f = k) batch) with (@nil Future); [done|].
      symmetry. apply filter_nil_iff. intros f Hf. by apply Hk.
    + intros f Hf. rewrite foldl_upsert_lookup, Hf. simpl. split.
      * by intros ->.
      * intros row E. eexists. split; [done|]. by apply Hrow.
    + intros k c. rewrite foldl_upsert_lookup. apply chain_flag.
  - intros ov f u b E Hf. rewrite upsert_lookup, E. simpl. by rewrite Hf.
Qed.

Lemma apply_permission_updates_merges_witness :
  result apply_permission_updates scenario_permissions = inr 2 ∧
  user_permission_overrides (db (after apply_permission_updates scenario_permissions))
    !! (1, 7)
    = Some {| read := Some true; write := Some false;
              upload := Some false; banned := Some true |}.
Proof.
  assert (result apply_permission_updates scenario_permissions = inr 2) as R
    by (vm_compute; reflexivity).
  split; [exact R|].
  destruct apply_permission_updates_merges as (_ & Hrun & _).
  destruct (Hrun scenario_permissions 2 R) as (_ & _ & _ & Hone & _).
  destruct (Hone future_1_7) as [_ Hlive]; [vm_compute; reflexivity|].
  destruct (Hlive {| read := Some true; write := None;
                     upload := Some false; banned := None |})
    as (row' & Hrow' & Hflags); [vm_compute; reflexivity|].
  change (1, 7) with (key future_1_7).
  rewrite Hrow'. f_equal. destruct row' as [r wr u b].
  pose proof (Hflags Read) as [_ Hr]. pose proof (Hflags Write) as [Hw _].
  pose proof (Hflags Upload) as [_ Hu]. pose proof (Hflags Banned) as [Hb _].
  simpl in *. rewrite Hr, (Hw false), Hu, (Hb true); done.
Defined.

(** C4.  Given a store that raises nothing on its two statements,
    [apply_permission_updates] returns.  What it returns is the [rowcount]
    of the upsert, the number of futures with [at] ≤ now.  When that is 0 it
    returns 0 and leaves [user_permission_futures] as it was; otherwise it
    deletes every future with [at] ≤ now, in the one transaction the upsert
    ran in, so that after a run that returned a count other than 0 no such
    future is left.  A run that raises leaves the store as it was. *)
Theorem apply_permission_updates_consumes w :
  let now := clock w (reads w) in
  let w' := after apply_permission_updates w in
  let pending := user_permission_futures (db w) in
  let upsert_rowcount :=
    rowcount
      (run_statement
         (INSERT_INTO_user_permission_overrides_SELECT_futures_WHERE_at_le now)
         (db w)).2 in
  (no_fault 2 w → ∃ n, result apply_permission_updates w = inr n) ∧
  (∀ n, result apply_permission_updates w = inr n →
     n = upsert_rowcount ∧
     n = len (filter (λ f, at_ f ≤ now) pending) ∧
     (upsert_rowcount = 0 →
        n = 0 ∧ user_permission_futures (db w') = pending ∧
        new_events w w' = [Commit]) ∧
     (upsert_rowcount ≠ 0 →
        user_permission_futures (db w') = filter (λ f, ¬ at_ f ≤ now) pending ∧
        new_events w w' =
          [Commit; Log logging INFO (Applied_scheduled_user_permission_updates n)]) ∧
     (n ≠ 0 → ∀ f, f ∈ user_permission_futures (db w') → ¬ at_ f ≤ now)) ∧
  (∀ e, result apply_permission_updates w = inl e → db w' = db w).
Proof.
  intros now w' pending upsert_rowcount.
  split; [apply apply_permission_updates_total|].
  split; [|apply apply_permission_updates_raises].
  intros n R.
  destruct (apply_permission_updates_returns w n R)
    as (Hn & _ & Hfut & _ & _ & _ & _ & Ht).
  fold w' pending in Hfut, Ht.
  assert (upsert_rowcount = len (due w)) as Hrc by done.
  assert (len (due w) = 0 ↔ due w = []) as Hz by apply len_nil_iff.
  split; [congruence|]. split; [done|]. split; [|split].
  - intros H0. rewrite Hrc in H0. apply Hz in H0.
    rewrite decide_True in Hfut by done. rewrite decide_True in Ht by done.
    split; [by rewrite Hn, H0|]. split; [done|]. by apply new_events_app.
  - intros H0. rewrite Hrc, Hz in H0.
    rewrite decide_False in Hfut by done. rewrite decide_False in Ht by done.
    split; [done|]. by apply new_events_app.
  - intros H0 f Hf. rewrite Hn, Hz in H0.
    rewrite decide_False in Hfut by done. rewrite Hfut in Hf.
    by apply list_elem_of_filter in Hf as [? _].
Qed.

Lemma apply_permission_updates_consumes_witness :
  result apply_permission_updates scenario_permissions = inr 2 ∧
  user_permission_futures (db (after apply_permission_updates scenario_permissions))
    = [future_later].
Proof.
  destruct (apply_permission_updates_consumes scenario_permissions)
    as (Htotal & Hrun & _).
  destruct Htotal as [n R]; [apply no_fault_nil; reflexivity|].
  destruct (Hrun n R) as (Hn & _ & _ & Hsome & _).
  destruct Hsome as [-> _]; [vm_compute; discriminate|].
  rewrite R, Hn. split; vm_compute; reflexivity.
Defined.

(** ** What every operation leaves of the clock, the configuration and the
    fault list *)

Ltac env_done := repeat split; try done; by intros ->.

Lemma prune_files_env w :
  let w' := after prune_files w in
  reads w' = S (reads w) ∧ clock w' = clock w ∧ config w' = config w ∧
  (faults w = [] → faults w' = []).
Proof.
  unfold after.
  destruct (next_fault w) as [msg|] eqn:F.
  { rewrite (prune_files_select_fault w msg F). simpl. env_done. }
  destruct (decide (expired w = [])) as [E|E].
  { rewrite (prune_files_nothing w F E). simpl. env_done. }
  destruct (next_fault (spent w)) as [msg|] eqn:F2.
  { rewrite (prune_files_delete_fault w msg F E F2). simpl. env_done. }
  destruct (prune_files_some w F E F2) as (k & _ & ->). simpl.
  destruct (unlink_all_frame (path <$> expired w) 0 (files_committed w))
    as (_ & Hcfg & Hclk & Hreads & Hfaults).
  unfold after in *. rewrite Hcfg, Hclk, Hreads, Hfaults. simpl.
  env_done.
Qed.

Lemma prune_message_history_env w :
  let w' := after prune_message_history w in
  reads w' = S (reads w) ∧ clock w' = clock w ∧ config w' = config w ∧
  (faults w = [] → faults w' = []).
Proof.
  unfold after.
  destruct (next_fault w) as [msg|] eqn:F.
  { rewrite (prune_message_history_fault w msg F). simpl. env_done. }
  rewrite (prune_message_history_runs w F). simpl.
  case_decide; simpl; env_done.
Qed.

Lemma prune_room_activity_env w :
  let w' := after prune_room_activity w in
  reads w' = S (reads w) ∧ clock w' = clock w ∧ config w' = config w ∧
  (faults w = [] → faults w' = []).
Proof.
  unfold after.
  destruct (next_fault w) as [msg|] eqn:F.
  { rewrite (prune_room_activity_fault w msg F). simpl. env_done. }
  rewrite (prune_room_activity_runs w F). simpl.
  case_decide; simpl; env_done.
Qed.

Lemma apply_permission_updates_env w :
  let w' := after apply_permission_updates w in
  reads w' = S (reads w) ∧ clock w' = clock w ∧ config w' = config w ∧
  (faults w = [] → faults w' = []).
Proof.
  unfold after.
  destruct (next_fault w) as [msg|] eqn:F.
  { rewrite (apply_permission_updates_upsert_fault w msg F). simpl. env_done. }
  destruct (decide (due w = [])) as [E|E].
  { rewrite (apply_permission_updates_nothing w F E). simpl. env_done. }
  destruct (next_fault (spent w)) as [msg|] eqn:F2.
  { rewrite (apply_permission_updates_delete_fault w msg F E F2). simpl.
    env_done. }
  rewrite (apply_permission_updates_some w F E F2). simpl. env_done.
Qed.

(** * Running an operation twice *)

(** C6.  Run one of the four operations, and run it again at once on the
    world the first run left.  If no row of the table qualifies at the
    second reading of the clock that did not already qualify at the first
    (which is so whenever the two readings are equal), the second run
    returns 0. *)
Theorem second_run_returns_zero w :
  let now1 := clock w (reads w) in
  let now2 := clock w (S (reads w)) in
  (∀ n1 n2,
     result prune_files w = inr n1 →
     result prune_files (after prune_files w) = inr n2 →
     (∀ r, r ∈ files (db w) → expiry r < now2 → expiry r < now1) →
     n2 = 0) ∧
  (∀ n1 n2,
     result prune_message_history w = inr n1 →
     result prune_message_history (after prune_message_history w) = inr n2 →
     (∀ r, r ∈ message_history (db w) →
        lt_float (replaced r)
          (float_sub now2 (float_mul (MESSAGE_HISTORY_PRUNE_THRESHOLD (config w)) 86400)) →
        lt_float (replaced r)
          (float_sub now1 (float_mul (MESSAGE_HISTORY_PRUNE_THRESHOLD (config w)) 86400))) →
     n2 = 0) ∧
  (∀ n1 n2,
     result prune_room_activity w = inr n1 →
     result prune_room_activity (after prune_room_activity w) = inr n2 →
     (∀ r, r ∈ room_users (db w) →
        lt_float (last_active r)
          (float_sub now2 (float_mul (ROOM_ACTIVE_PRUNE_THRESHOLD (config w)) 86400)) →
        lt_float (last_active r)
          (float_sub now1 (float_mul (ROOM_ACTIVE_PRUNE_THRESHOLD (config w)) 86400))) →
     n2 = 0) ∧
  (∀ n1 n2,
     result apply_permission_updates w = inr n1 →
     result apply_permission_updates (after apply_permission_updates w) = inr n2 →
     (∀ f, f ∈ user_permission_futures (db w) → at_ f ≤ now2 → at_ f ≤ now1) →
     n2 = 0).
Proof.
  intros now1 now2. split; [|split; [|split]].
  - intros n1 n2 R1 R2 Hnew.
    destruct (prune_files_env w) as (Hreads & Hclk & _).
    destruct (prune_files_returns _ n2 R2) as (-> & _).
    apply len_nil_iff, filter_nil_iff. rewrite Hclk, Hreads. fold now2.
    intros r Hr Hlt.
    destruct (prune_files_returns w n1 R1) as (_ & _ & [(E & Hdb & _)|(_ & Hdb & _)]);
      rewrite Hdb in Hr.
    + by apply (proj1 (expired_nil w) E r), Hnew.
    + rewrite files_deleted_files in Hr.
      apply list_elem_of_filter in Hr as [Hge Hr].
      pose proof (Hnew r Hr Hlt). unfold now1 in *. lia.
  - intros n1 n2 R1 R2 Hnew.
    destruct (prune_message_history_env w) as (Hreads & Hclk & Hcfg & _).
    destruct (prune_message_history_returns _ n2 R2) as (-> & _).
    apply len_nil_iff, filter_nil_iff.
    unfold history_cutoff at 1. rewrite Hclk, Hreads, Hcfg. fold now2.
    intros r Hr Hlt.
    destruct (prune_message_history_returns w n1 R1) as (_ & Hkept & _).
    rewrite Hkept in Hr. apply list_elem_of_filter in Hr as [Hge Hr].
    by apply Hge, Hnew.
  - intros n1 n2 R1 R2 Hnew.
    destruct (prune_room_activity_env w) as (Hreads & Hclk & Hcfg & _).
    destruct (prune_room_activity_returns _ n2 R2) as (-> & _).
    apply len_nil_iff, filter_nil_iff.
    unfold activity_cutoff at 1. rewrite Hclk, Hreads, Hcfg. fold now2.
    intros r Hr Hlt.
    destruct (prune_room_activity_returns w n1 R1) as (_ & Hkept & _).
    rewrite Hkept in Hr. apply list_elem_of_filter in Hr as [Hge Hr].
    by apply Hge, Hnew.
  - intros n1 n2 R1 R2 Hnew.
    destruct (apply_permission_updates_env w) as (Hreads & Hclk & _).
    destruct (apply_permission_updates_returns _ n2 R2) as (-> & _).
    apply len_nil_iff, filter_nil_iff. rewrite Hclk, Hreads. fold now2.
    intros f Hf Hle.
    destruct (apply_permission_updates_returns w n1 R1) as (_ & _ & Hfut & _).
    rewrite Hfut in Hf. case_decide as E.
    + apply (proj1 (filter_nil_iff _ _) E f Hf). by apply Hnew.
    + apply list_elem_of_filter in Hf as [Hgt Hf]. by apply Hgt, Hnew.
Qed.

Lemma second_run_returns_zero_witness :
  (result prune_files scenario = inr 3 ∧
   result prune_files (after prune_files scenario) = inr 0) ∧
  (result apply_permission_updates scenario_permissions = inr 2 ∧
   result apply_permission_updates
     (after apply_permission_updates scenario_permissions) = inr 0).
Proof.
  destruct (second_run_returns_zero scenario) as (Hfiles & _).
  destruct (second_run_returns_zero scenario_permissions) as (_ & _ & _ & Hperm).
  assert (result prune_files scenario = inr 3) as R1 by (vm_compute; reflexivity).
  assert (result apply_permission_updates scenario_permissions = inr 2) as P1
    by (vm_compute; reflexivity).
  destruct (prune_files_total (after prune_files scenario)) as [n2 R2];
    [apply no_fault_nil; vm_compute; reflexivity|].
  destruct (apply_permission_updates_total
              (after apply_permission_updates scenario_permissions)) as [m2 P2];
    [apply no_fault_nil; vm_compute; reflexivity|].
  rewrite R2, P2.
  rewrite (Hfiles 3 n2 R1 R2), (Hperm 2 m2 P1 P2); [done| |].
  - intros f Hf. apply list_elem_of_In in Hf. simpl in Hf.
    destruct Hf as [<-|[<-|[<-|[]]]]; vm_compute; intros H; try done;
      by destruct H.
  - intros r Hr. apply list_elem_of_In in Hr. simpl in Hr.
    destruct Hr as [<-|[<-|[<-|[<-|[]]]]]; vm_compute; done.
Defined.

(** * The driver *)

(** C7.  [cleanup] never raises.  When one of the four operations raises,
    [cleanup] ends there: the world it leaves is the one the raising
    operation left plus the warning that carries the exception, and the
    clock has been read once for each operation up to that one and not for
    the later ones.  When none raises, all four have run and the summary is
    logged.  Whatever an earlier call of [cleanup] did, a call in a world
    where the store raises no more runs all four operations. *)
Theorem cleanup_contains_failures w :
  let w0 := started w in
  let w1 := after prune_files w0 in
  let w2 := after prune_message_history w1 in
  let w3 := after prune_room_activity w2 in
  let w4 := after apply_permission_updates w3 in
  result cleanup w = inr tt ∧
  (∀ e, result prune_files w0 = inl e →
     after cleanup w = emit (warning e) w1 ∧
     reads (after cleanup w) = (reads w + 1)%nat) ∧
  (∀ files e,
     result prune_files w0 = inr files →
     result prune_message_history w1 = inl e →
     after cleanup w = emit (warning e) w2 ∧
     reads (after cleanup w) = (reads w + 2)%nat) ∧
  (∀ files msg_hist e,
     result prune_files w0 = inr files →
     result prune_message_history w1 = inr msg_hist →
     result prune_room_activity w2 = inl e →
     after cleanup w = emit (warning e) w3 ∧
     reads (after cleanup w) = (reads w + 3)%nat) ∧
  (∀ files msg_hist room_act e,
     result prune_files w0 = inr files →
     result prune_message_history w1 = inr msg_hist →
     result prune_room_activity w2 = inr room_act →
     result apply_permission_updates w3 = inl e →
     after cleanup w = emit (warning e) w4 ∧
     reads (after cleanup w) = (reads w + 4)%nat) ∧
  (∀ files msg_hist room_act perm_upd,
     result prune_files w0 = inr files →
     result prune_message_history w1 = inr msg_hist →
     result prune_room_activity w2 = inr room_act →
     result apply_permission_updates w3 = inr perm_upd →
     after cleanup w =
       emit (Log app_logger DEBUG
               (Pruned_files_msg_hist_room_activity_perm_updates
                  files msg_hist room_act perm_upd)) w4 ∧
     reads (after cleanup w) = (reads w + 4)%nat) ∧
  (faults (after cleanup w) = [] →
     let next := after cleanup (after cleanup w) in
     reads next = (reads (after cleanup w) + 4)%nat ∧
     ∃ files msg_hist room_act perm_upd,
       last (trace next) =
         Some (Log app_logger DEBUG
                 (Pruned_files_msg_hist_room_activity_perm_updates
                    files msg_hist room_act perm_upd))).
Proof.
  assert (∀ w,
    let w0 := started w in
    let w1 := after prune_files w0 in
    let w2 := after prune_message_history w1 in
    let w3 := after prune_room_activity w2 in
    let w4 := after apply_permission_updates w3 in
    cleanup w =
      match result prune_files w0 with
      | inl e => (inr tt, emit (warning e) w1)
      | inr files =>
        match result prune_message_history w1 with
        | inl e => (inr tt, emit (warning e) w2)
        | inr msg_hist =>
          match result prune_room_activity w2 with
          | inl e => (inr tt, emit (warning e) w3)
          | inr room_act =>
            match result apply_permission_updates w3 with
            | inl e => (inr tt, emit (warning e) w4)
            | inr perm_upd =>
                (inr tt,
                 emit (Log app_logger DEBUG
                         (Pruned_files_msg_hist_room_activity_perm_updates
                            files msg_hist room_act perm_upd)) w4)
            end
          end
        end
      end) as Hcleanup.
  { clear w. intros w. simpl. unfold cleanup, try_except, bind, log_to, result, after.
    simpl. fold (started w).
    destruct (prune_files (started w)) as [[e|n1] w1]; simpl; [done|].
    destruct (prune_message_history w1) as [[e|n2] w2]; simpl; [done|].
    destruct (prune_room_activity w2) as [[e|n3] w3]; simpl; [done|].
    destruct (apply_permission_updates w3) as [[e|n4] w4]; simpl; done. }
  assert (∀ w,
    let w0 := started w in
    let w1 := after prune_files w0 in
    let w2 := after prune_message_history w1 in
    let w3 := after prune_room_activity w2 in
    let w4 := after apply_permission_updates w3 in
    reads w1 = (reads w + 1)%nat ∧ reads w2 = (reads w + 2)%nat ∧
    reads w3 = (reads w + 3)%nat ∧ reads w4 = (reads w + 4)%nat) as Hreads.
  { clear w. intros w w0 w1 w2 w3 w4.
    destruct (prune_files_env w0) as (H1 & _).
    destruct (prune_message_history_env w1) as (H2 & _).
    destruct (prune_room_activity_env w2) as (H3 & _).
    destruct (apply_permission_updates_env w3) as (H4 & _).
    fold w1 in H1. fold w2 in H2. fold w3 in H3. fold w4 in H4.
    unfold w0, started in H1. simpl in H1. lia. }
  intros w0 w1 w2 w3 w4.
  destruct (Hreads w) as (Hr1 & Hr2 & Hr3 & Hr4).
  fold w0 w1 w2 w3 w4 in Hr1, Hr2, Hr3, Hr4.
  pose proof (Hcleanup w) as Hc. simpl in Hc. fold w0 w1 w2 w3 w4 in Hc.
  split; [|split; [|split; [|split; [|split; [|split]]]]].
  - unfold result at 1. rewrite Hc. by repeat case_match.
  - intros e R1. change (after cleanup w) with (cleanup w).2. rewrite Hc, R1. done.
  - intros n1 e R1 R2. change (after cleanup w) with (cleanup w).2. rewrite Hc, R1, R2. done.
  - intros n1 n2 e R1 R2 R3. change (after cleanup w) with (cleanup w).2. rewrite Hc, R1, R2, R3. done.
  - intros n1 n2 n3 e R1 R2 R3 R4. change (after cleanup w) with (cleanup w).2.
    rewrite Hc, R1, R2, R3, R4. done.
  - intros n1 n2 n3 n4 R1 R2 R3 R4. change (after cleanup w) with (cleanup w).2.
    rewrite Hc, R1, R2, R3, R4. done.
  - intros Hnf next. set (v := after cleanup w) in *.
    set (v0 := started v). set (v1 := after prune_files v0).
    set (v2 := after prune_message_history v1).
    set (v3 := after prune_room_activity v2).
    set (v4 := after apply_permission_updates v3).
    assert (faults v0 = []) as Hf0 by done.
    assert (faults v1 = []) as Hf1 by (by apply prune_files_env).
    assert (faults v2 = []) as Hf2 by (by apply prune_message_history_env).
    assert (faults v3 = []) as Hf3 by (by apply prune_room_activity_env).
    destruct (prune_files_total v0) as [n1 R1]; [by apply no_fault_nil|].
    destruct (prune_message_history_total v1) as [n2 R2]; [by apply no_fault_nil|].
    destruct (prune_room_activity_total v2) as [n3 R3]; [by apply no_fault_nil|].
    destruct (apply_permission_updates_total v3) as [n4 R4];
      [by apply no_fault_nil|].
    pose proof (Hcleanup v) as Hv. simpl in Hv.
    fold v0 v1 v2 v3 v4 in Hv. rewrite R1, R2, R3, R4 in Hv.
    destruct (Hreads v) as (_ & _ & _ & Hv4). fold v0 v1 v2 v3 v4 in Hv4.
    unfold next. change (after cleanup v) with (cleanup v).2. rewrite Hv. simpl. split; [done|].
    exists n1, n2, n3, n4. apply last_snoc.
Qed.

Lemma cleanup_contains_failures_witness :
  (result prune_files (started scenario_locked) = inr 3 ∧
   result prune_message_history (after prune_files (started scenario_locked))
     = inl (DatabaseError "database is locked")) ∧
  reads (after cleanup scenario_locked) = 2%nat ∧
  last (trace (after cleanup scenario_locked))
    = Some (warning (DatabaseError "database is locked")) ∧
  reads (after cleanup (after cleanup scenario_locked)) = 6%nat.
Proof.
  assert (result prune_files (started scenario_locked) = inr 3) as R1
    by (vm_compute; reflexivity).
  assert (result prune_message_history (after prune_files (started scenario_locked))
          = inl (DatabaseError "database is locked")) as R2
    by (vm_compute; reflexivity).
  split; [done|].
  destruct (cleanup_contains_failures scenario_locked)
    as (_ & _ & Hsecond & _ & _ & _ & Hnext).
  destruct (Hsecond 3 _ R1 R2) as [Hafter Hreads].
  destruct Hnext as [Hnext _]; [rewrite Hafter; vm_compute; reflexivity|].
  split; [exact Hreads|]. split.
  - rewrite Hafter. apply last_snoc.
  - rewrite Hnext, Hreads. reflexivity.
Defined.

(** * Further properties of the file pruner *)

(** How [prune_files] raises: only with the store's error, after which the
    world differs from the one before by the clock reading, the used-up
    fates and the rollback. *)
Lemma prune_files_raises_all w e :
  result prune_files w = inl e →
  let w' := after prune_files w in
  (∃ msg, e = DatabaseError msg) ∧ db w' = db w ∧ disk w' = disk w ∧
  trace w' = trace w ++ [Rollback].
Proof.
  unfold result, after. intros R.
  destruct (next_fault w) as [msg|] eqn:F.
  { rewrite (prune_files_select_fault w msg F) in *. simpl in *.
    injection R as <-. eauto. }
  destruct (decide (expired w = [])) as [E|E].
  { by rewrite (prune_files_nothing w F E) in R. }
  destruct (next_fault (spent w)) as [msg|] eqn:F2.
  { rewrite (prune_files_delete_fault w msg F E F2) in *. simpl in *.
    injection R as <-. eauto. }
  destruct (prune_files_some w F E F2) as (k & _ & Heq). by rewrite Heq in R.
Qed.

Lemma unlink_calls_run evs lvl msg :
  unlink_calls (Commit :: evs ++ [Log app_logger lvl msg]) = unlink_calls evs.
Proof.
  unfold unlink_calls. simpl. rewrite omap_app. simpl. apply app_nil_r.
Qed.

(** The paths [os.unlink] is called on in a run of [prune_files] that
    returns: those of the selected rows, in order. *)
Lemma prune_files_unlink_calls w n :
  result prune_files w = inr n →
  unlink_calls (new_events w (after prune_files w)) = path <$> expired w.
Proof.
  intros R. destruct (prune_files_returns w n R)
    as (_ & _ & [(E & _ & _ & Ht)|(_ & _ & _ & _ & evs & Ht & Hcalls & _)]).
  - by rewrite (new_events_app _ _ _ Ht), E.
  - by rewrite (new_events_app _ _ _ Ht), unlink_calls_run.
Qed.

(** X1.  When [prune_files] raises it is with the store's error and nothing
    has happened: the store and the disk are as before and the run left a
    rollback and no [os.unlink] call behind, also when it was the DELETE
    that failed after a SELECT that found rows. *)
Theorem prune_files_failure_touches_nothing w e :
  result prune_files w = inl e →
  let w' := after prune_files w in
  (∃ msg, e = DatabaseError msg) ∧
  db w' = db w ∧ disk w' = disk w ∧
  new_events w w' = [Rollback] ∧ unlink_calls (new_events w w') = [].
Proof.
  intros R w'. destruct (prune_files_raises_all w e R) as (He & Hdb & Hdisk & Ht).
  fold w' in Hdb, Hdisk, Ht. rewrite (new_events_app _ _ _ Ht). done.
Qed.

Lemma prune_files_failure_touches_nothing_witness :
  result prune_files scenario_delete_fails = inl (DatabaseError "disk I/O error") ∧
  files (db (after prune_files scenario_delete_fails))
    = [file_A; file_B; file_C; file_D] ∧
  disk (after prune_files scenario_delete_fails) = disk scenario_delete_fails.
Proof.
  assert (result prune_files scenario_delete_fails
          = inl (DatabaseError "disk I/O error")) as R by (vm_compute; reflexivity).
  split; [exact R|].
  destruct (prune_files_failure_touches_nothing _ _ R) as (_ & -> & -> & _).
  split; reflexivity.
Defined.

(** X2.  The blob of a row that expires exactly at [now] is left on disk
    when the row is deleted: in a run that returns and found a strictly
    expired row, such a row is removed from [files], but unless a strictly
    expired row has the same path [os.unlink] is never called on its path
    and what is on disk there stays. *)
Theorem prune_files_orphans_boundary_blob w n r :
  result prune_files w = inr n →
  let now := clock w (reads w) in
  let w' := after prune_files w in
  r ∈ files (db w) →
  expiry r = now →
  (∃ r0, r0 ∈ files (db w) ∧ expiry r0 < now) →
  (∀ r0, r0 ∈ files (db w) → expiry r0 < now → path r0 ≠ path r) →
  (r ∉ files (db w')) ∧
  (path r ∉ unlink_calls (new_events w w')) ∧
  disk w' !! path r = disk w !! path r.
Proof.
  intros R now w' Hr Hnow Hex%expired_cons Hpath.
  assert (path r ∉ path <$> expired w) as Hnot.
  { intros (r0 & Heq & [Hlt Hr0]%list_elem_of_filter)%list_elem_of_fmap.
    by apply (Hpath r0). }
  destruct (prune_files_returns w n R)
    as (_ & _ & [(E & _)|(_ & Hdb & _ & Hd & _)]); [done|].
  fold w' in Hdb, Hd. split; [|split].
  - rewrite Hdb, files_deleted_files, list_elem_of_filter. unfold now in *. lia.
  - unfold w'. by rewrite (prune_files_unlink_calls w n R).
  - by apply Hd.
Qed.

Lemma prune_files_orphans_boundary_blob_witness :
  result prune_files scenario_boundary = inr 1 ∧
  (file_E ∉ files (db (after prune_files scenario_boundary))) ∧
  disk (after prune_files scenario_boundary) !! "E" = Some Blob.
Proof.
  assert (result prune_files scenario_boundary = inr 1) as R
    by (vm_compute; reflexivity).
  split; [exact R|].
  destruct (prune_files_orphans_boundary_blob scenario_boundary 1 file_E R)
    as (Hrow & _ & Hdisk).
  - vm_compute. right. left.
  - vm_compute. reflexivity.
  - exists file_A. split; [vm_compute; left|vm_compute; reflexivity].
  - intros r0 Hr0 Hlt. apply list_elem_of_In in Hr0. simpl in Hr0.
    destruct Hr0 as [<-|[<-|[]]]; [done|]. vm_compute in Hlt. done.
  - split; [exact Hrow|]. change (path file_E) with "E" in Hdisk.
    rewrite Hdisk. vm_compute. reflexivity.
Defined.

(** X3.  Whatever its outcome, [prune_files] deletes nothing early and
    nothing else: the rows that expire after [now] are all still there, in
    their order; [files] only loses rows; the four other tables are as
    before; and what is on disk at a path that no strictly expired row
    names stays as it is, while no path comes into being. *)
Theorem prune_files_spares_the_rest w :
  let now := clock w (reads w) in
  let w' := after prune_files w in
  filter (λ r, now < expiry r) (files (db w'))
    = filter (λ r, now < expiry r) (files (db w)) ∧
  files (db w') `sublist_of` files (db w) ∧
  message_history (db w') = message_history (db w) ∧
  room_users (db w') = room_users (db w) ∧
  user_permission_overrides (db w') = user_permission_overrides (db w) ∧
  user_permission_futures (db w') = user_permission_futures (db w) ∧
  (∀ p, (∀ r, r ∈ files (db w) → expiry r < now → path r ≠ p) →
        disk w' !! p = disk w !! p) ∧
  (∀ p, disk w !! p = None → disk w' !! p = None).
Proof.
  intros now w'.
  destruct (result prune_files w) as [e|n] eqn:R.
  { destruct (prune_files_raises_all w e R) as (_ & Hdb & Hdisk & _).
    fold w' in Hdb, Hdisk. rewrite Hdb, Hdisk. repeat split; done. }
  destruct (prune_files_returns w n R)
    as (_ & _ & [(_ & Hdb & Hdisk & _)|(_ & Hdb & Hnone & Hother & _)]);
    fold w' in Hdb.
  { fold w' in Hdisk. rewrite Hdb, Hdisk. repeat split; done. }
  fold w' in Hnone, Hother. rewrite Hdb. simpl.
  split; [|split; [apply sublist_filter|repeat split; try done]].
  - rewrite list_filter_filter. apply list_filter_iff. intros r. fold now. lia.
  - intros p Hp. apply Hother.
    intros (r & Heq & [Hlt Hr]%list_elem_of_filter)%list_elem_of_fmap.
    by apply (Hp r).
Qed.

Lemma prune_files_spares_the_rest_witness :
  disk (after prune_files scenario) !! "D" = Some Blob.
Proof.
  destruct (prune_files_spares_the_rest scenario)
    as (_ & _ & _ & _ & _ & _ & Hdisk & _).
  rewrite Hdisk; [vm_compute; reflexivity|].
  intros r Hr Hlt. apply list_elem_of_In in Hr. simpl in Hr.
  destruct Hr as [<-|[<-|[<-|[<-|[]]]]]; done.
Defined.

(** An [OSError] in the trace of the loop comes from an entry that was on
    disk, refusing, when the loop started. *)
Lemma unlink_all_refused l : ∀ k w evs p strerror,
  trace (after (unlink_all l k) w) = trace w ++ evs →
  Unlink p (Some (OSError strerror)) ∈ evs →
  disk w !! p = Some (Refuses strerror).
Proof.
  induction l as [|q rest IH]; intros k w evs p s.
  { unfold after. simpl. intros Ht.
    rewrite <- (app_nil_r (trace w)) in Ht at 1.
    apply app_inv_head in Ht as <-. by intros ?%elem_of_nil. }
  unfold after. rewrite unlink_all_cons.
  destruct (unlink_one_cases q k w) as [[Hq E]|[[Hq E]|(m & Hq & E)]];
    rewrite E; simpl;
    match goal with |- context [unlink_all rest ?k' ?w1] =>
      destruct (unlink_all_trace rest k' w1) as (evs' & Ht' & _);
      pose proof (IH k' w1 evs' p s Ht') as H
    end; unfold after in Ht'; rewrite Ht'; simpl in *;
    rewrite <- ?app_assoc; simpl; intros <-%app_inv_head.
  - intros [?|Hin]%elem_of_cons; [done|]. by apply H.
  - intros [?|Hin]%elem_of_cons; [done|].
    apply H in Hin. by apply lookup_delete_Some in Hin as [_ ?].
  - intros [Heq|[?|Hin]%elem_of_cons]%elem_of_cons; [|done|by apply H].
    by injection Heq as -> ->.
Qed.

Lemma size_difference_le (X Y : gset string) : (size (X ∖ Y) ≤ size X)%nat.
Proof. apply subseteq_size. by intros x [? _]%elem_of_difference. Qed.

Lemma size_list_to_set_le (l : list string) :
  (size (list_to_set (C:=gset string) l) ≤ length l)%nat.
Proof.
  induction l as [|x l IH]; [done|].
  rewrite list_to_set_cons, size_union_alt, size_singleton. simpl.
  pose proof (size_difference_le (list_to_set l) {[x]}). lia.
Qed.

Lemma size_list_to_set_lt (l : list string) :
  ¬ NoDup l → (size (list_to_set (C:=gset string) l) < length l)%nat.
Proof.
  induction l as [|x l IH]; intros Hdup.
  { destruct Hdup. constructor. }
  rewrite list_to_set_cons. simpl.
  destruct (decide (x ∈ l)) as [Hx|Hx].
  - replace ({[x]} ∪ list_to_set l) with (list_to_set (C:=gset string) l)
      by (apply set_eq; intros y; rewrite elem_of_union, elem_of_singleton,
            !elem_of_list_to_set; split; [by right|by intros [->|?]]).
    pose proof (size_list_to_set_le l). lia.
  - assert (¬ NoDup l) as Hl by (intros Hl; apply Hdup; by constructor).
    rewrite size_union_alt, size_singleton.
    pose proof (size_difference_le (list_to_set l) {[x]}).
    specialize (IH Hl). lia.
Qed.

(** The disk loses no more entries to the loop than its list has distinct
    paths. *)
Lemma unlink_all_size l k w :
  (size (disk w)
   ≤ size (disk (after (unlink_all l k) w))
     + size (list_to_set (C:=gset string) l))%nat.
Proof.
  destruct (unlink_all_disk l k w) as [_ Hother]. simpl in Hother.
  set (fs' := disk (after (unlink_all l k) w)) in *.
  rewrite <- !(size_dom (D:=gset string)).
  assert (dom (disk w) ⊆ dom fs' ∪ list_to_set (C:=gset string) l) as Hsub.
  { intros p Hp. apply elem_of_union.
    destruct (decide (p ∈ l)) as [Hl|Hl];
      [right; by apply elem_of_list_to_set|left].
    apply elem_of_dom. rewrite (Hother p Hl). by apply elem_of_dom. }
  apply subseteq_size in Hsub.
  pose proof (size_union_alt (dom fs') (list_to_set (C:=gset string) l)) as Hu.
  pose proof (size_difference_le (list_to_set l) (dom fs')). lia.
Qed.

(** A run of [prune_files] that returns with rows selected is the unlink
    loop run on the committed world, and the closing line. *)
Lemma prune_files_unfold w n :
  result prune_files w = inr n → expired w ≠ [] →
  let to_remove := path <$> expired w in
  ∃ unlink_count,
    result (unlink_all to_remove 0) (files_committed w) = inr unlink_count ∧
    n = len to_remove ∧
    after prune_files w =
      emit (Log app_logger INFO
              (Pruned_expired_deleted_files (len to_remove)
                 (if decide (unlink_count ≠ len to_remove)
                  then Some unlink_count else None)))
        (after (unlink_all to_remove 0) (files_committed w)).
Proof.
  intros R E to_remove. unfold result in R.
  destruct (next_fault w) as [msg|] eqn:F.
  { by rewrite (prune_files_select_fault w msg F) in R. }
  destruct (next_fault (spent w)) as [msg|] eqn:F2.
  { by rewrite (prune_files_delete_fault w msg F E F2) in R. }
  destruct (prune_files_some w F E F2) as (k & Hk & Heq).
  exists k. unfold after at 1. rewrite Heq in *. simpl in *.
  split; [done|]. split; [by injection R|done].
Qed.

(** X4.  In a run of [prune_files] that returns with rows selected, the
    number of blobs the disk lost is at most the number of distinct paths
    among the selected rows, which is at most the count returned; the
    closing line reports the count returned, and the number of blobs lost
    beside it exactly when the two differ; so when two selected rows share
    a path the closing line always reports a shortfall. *)
Theorem prune_files_shortfall w n :
  result prune_files w = inr n →
  let now := clock w (reads w) in
  let w' := after prune_files w in
  (∃ r0, r0 ∈ files (db w) ∧ expiry r0 < now) →
  let paths := path <$> filter (λ r, expiry r < now) (files (db w)) in
  let lost := Z.of_nat (size (disk w)) - Z.of_nat (size (disk w')) in
  0 ≤ lost ∧
  lost ≤ Z.of_nat (size (list_to_set (C:=gset string) paths)) ∧
  Z.of_nat (size (list_to_set (C:=gset string) paths)) ≤ n ∧
  last (trace w')
    = Some (Log app_logger INFO
              (Pruned_expired_deleted_files n
                 (if decide (lost ≠ n) then Some lost else None))) ∧
  (¬ NoDup paths → lost < n).
Proof.
  intros R now w' Hex%expired_cons paths lost.
  destruct (prune_files_unfold w n R Hex) as (k & Hk & Hn & Hafter).
  change (path <$> expired w) with paths in *.
  destruct (unlink_all_trace paths 0 (files_committed w))
    as (evs & _ & Hr & _ & Hsz & _).
  rewrite Hk in Hr. injection Hr as Hr. rewrite Z.add_0_l in Hr.
  pose proof (unlink_all_size paths 0 (files_committed w)) as Hle.
  assert (disk w' = disk (after (unlink_all paths 0) (files_committed w)))
    as Hdisk by (unfold w'; by rewrite Hafter).
  rewrite <- Hdisk in Hsz, Hle. simpl in Hsz, Hle.
  assert (lost = k) as Hlost by (unfold lost; lia).
  pose proof (size_list_to_set_le paths) as Hdistinct.
  assert (len paths = Z.of_nat (length paths)) as Hlen by done.
  split; [unfold lost; unfold removals, len in Hsz; lia|].
  split; [unfold lost; lia|]. split; [lia|]. split.
  - unfold w'. rewrite Hafter, Hlost, Hn. simpl. apply last_snoc.
  - intros Hdup%size_list_to_set_lt. unfold lost. lia.
Qed.

Lemma prune_files_shortfall_witness :
  result prune_files scenario_shared_blob = inr 2 ∧
  Z.of_nat (size (disk scenario_shared_blob))
  - Z.of_nat (size (disk (after prune_files scenario_shared_blob))) < 2.
Proof.
  assert (result prune_files scenario_shared_blob = inr 2) as R
    by (vm_compute; reflexivity).
  split; [exact R|].
  destruct (prune_files_shortfall scenario_shared_blob 2 R)
    as (_ & _ & _ & _ & Hdup).
  - exists file_A. split; [vm_compute; left|vm_compute; reflexivity].
  - apply Hdup. intros Hnd. apply NoDup_cons in Hnd as [Hnot _].
    apply Hnot. vm_compute. left.
Defined.

(** X5.  When the selected rows name distinct paths and a blob sits at each
    of them, a run of [prune_files] that returns removes them all: none of
    the paths is on disk afterwards, the disk has lost exactly as many
    entries as the count returned, no error is logged and the closing line
    reports no shortfall. *)
Theorem prune_files_clean_sweep w n :
  result prune_files w = inr n →
  let now := clock w (reads w) in
  let w' := after prune_files w in
  let paths := path <$> filter (λ r, expiry r < now) (files (db w)) in
  paths ≠ [] →
  NoDup paths →
  (∀ p, p ∈ paths → disk w !! p = Some Blob) →
  (∀ p, p ∈ paths → disk w' !! p = None) ∧
  Z.of_nat (size (disk w)) - Z.of_nat (size (disk w')) = n ∧
  (∀ via msg, Log via ERROR msg ∉ new_events w w') ∧
  last (trace w') = Some (Log app_logger INFO (Pruned_expired_deleted_files n None)).
Proof.
  intros R now w' paths Hne Hnodup Hblob.
  assert (expired w ≠ []) as Hex.
  { intros E. apply Hne. unfold paths.
    change (filter _ (files (db w))) with (expired w). by rewrite E. }
  destruct (prune_files_unfold w n R Hex) as (k & Hk & Hn & Hafter).
  change (path <$> expired w) with paths in *.
  set (wc := files_committed w) in *.
  destruct (unlink_all_trace paths 0 wc)
    as (evs & Ht & Hr & _ & Hsz & _ & _ & Hlog & Hgone & _).
  destruct (unlink_all_disk paths 0 wc) as [Hnone Hother].
  rewrite Hk in Hr. injection Hr as Hr. rewrite Z.add_0_l in Hr.
  assert (disk w' = disk (after (unlink_all paths 0) wc)) as Hdisk
    by (unfold w'; by rewrite Hafter).
  rewrite <- Hdisk in Hsz, Hgone, Hnone, Hother. simpl in Hsz, Hnone, Hother.
  assert (∀ p s, Unlink p (Some (OSError s)) ∈ evs → False) as Hnoerr.
  { intros p s Hin.
    pose proof (unlink_all_refused paths 0 wc evs p s Ht Hin) as Href.
    simpl in Href.
    destruct (decide (p ∈ paths)) as [Hp|Hp].
    - by rewrite (Hblob p Hp) in Href.
    - destruct (unlink_all_trace paths 0 wc) as (evs2 & Ht2 & _ & Hc2 & _).
      rewrite Ht in Ht2. apply app_inv_head in Ht2 as <-.
      apply Hp. rewrite <- Hc2. unfold unlink_calls.
      apply list_elem_of_omap. eexists. split; [exact Hin|done]. }
  assert (∀ p, p ∈ paths → disk w' !! p = None) as Hall.
  { intros p Hp. destruct (Hgone p Hp) as [?|(s & Hin & _)]; [done|].
    by destruct (Hnoerr p s). }
  assert (size (disk w) = (size (disk w') + length paths)%nat) as Hsize.
  { rewrite <- !(size_dom (D:=gset string)).
    rewrite <- (size_list_to_set (C:=gset string) paths) by done.
    rewrite <- size_union.
    - f_equal. apply set_eq. intros p.
      rewrite elem_of_union, elem_of_list_to_set, !elem_of_dom. split.
      + intros Hp. destruct (decide (p ∈ paths)) as [?|Hno]; [by right|left].
        by rewrite (Hother p Hno).
      + intros [[x Hx]|Hp]; [|by rewrite (Hblob p Hp)].
        destruct (disk w !! p) as [y|] eqn:Hy; [done|].
        by rewrite (Hnone p Hy) in Hx.
    - intros p [x Hx]%elem_of_dom Hp%elem_of_list_to_set.
      by rewrite (Hall p Hp) in Hx. }
  assert (k = n) as Hkn by (unfold len in *; lia).
  split; [done|]. split; [unfold len in *; lia|]. split.
  - intros via msg Hin.
    assert (trace w' =
            trace w ++ Commit :: evs ++
              [Log app_logger INFO
                 (Pruned_expired_deleted_files (len paths)
                    (if decide (k ≠ len paths) then Some k else None))]) as Hfull.
    { unfold w'. rewrite Hafter. simpl. rewrite Ht. simpl.
      by rewrite <- !app_assoc. }
    rewrite (new_events_app _ _ _ Hfull) in Hin.
    apply elem_of_cons in Hin as [?|Hin]; [done|].
    apply elem_of_app in Hin as [Hin|Hin].
    + destruct (Hlog _ _ _ Hin) as (p & s & _ & Herr & _).
      by destruct (Hnoerr p s).
    + by apply list_elem_of_singleton in Hin.
  - unfold w'. rewrite Hafter. simpl. rewrite last_snoc.
    rewrite <- Hn, decide_False by lia. done.
Qed.

Lemma prune_files_clean_sweep_witness :
  result prune_files scenario_all_present = inr 3 ∧
  last (trace (after prune_files scenario_all_present))
    = Some (Log app_logger INFO (Pruned_expired_deleted_files 3 None)).
Proof.
  assert (result prune_files scenario_all_present = inr 3) as R
    by (vm_compute; reflexivity).
  split; [exact R|].
  apply (prune_files_clean_sweep scenario_all_present 3 R).
  - vm_compute. discriminate.
  - vm_compute. repeat constructor; rewrite ?elem_of_cons, ?elem_of_nil;
      intros H; repeat destruct H as [H|H]; done.
  - intros p Hp. apply list_elem_of_In in Hp. vm_compute in Hp.
    destruct Hp as [<-|[<-|[<-|[]]]]; vm_compute; reflexivity.
Defined.

(** * Further properties of the history and room activity pruners *)

(** Every outcome of [prune_message_history] at once. *)
Lemma prune_message_history_outcome w :
  let w' := after prune_message_history w in
  match result prune_message_history w with
  | inl e =>
      (∃ msg, e = DatabaseError msg) ∧ db w' = db w ∧
      trace w' = trace w ++ [Rollback]
  | inr n =>
      n = len (filter (λ r, lt_float (replaced r) (history_cutoff w)) (message_history (db w))) ∧
      db w' = (run_statement
                 (DELETE_FROM_message_history_WHERE_replaced_lt (history_cutoff w))
                 (db w)).1 ∧
      trace w' =
        trace w ++ Commit ::
          (if decide (n > 0)
           then [Log app_logger INFO (Pruned_message_edit_deletion_records n)]
           else [])
  end ∧ disk w' = disk w.
Proof.
  unfold result, after.
  destruct (next_fault w) as [msg|] eqn:F.
  { rewrite (prune_message_history_fault w msg F). simpl. eauto. }
  rewrite (prune_message_history_runs w F). simpl.
  case_decide; simpl; rewrite <- ?app_assoc; done.
Qed.

(** Every outcome of [prune_room_activity] at once. *)
Lemma prune_room_activity_outcome w :
  let w' := after prune_room_activity w in
  match result prune_room_activity w with
  | inl e =>
      (∃ msg, e = DatabaseError msg) ∧ db w' = db w ∧
      trace w' = trace w ++ [Rollback]
  | inr n =>
      n = len (filter (λ r, lt_float (last_active r) (activity_cutoff w)) (room_users (db w))) ∧
      db w' = (run_statement
                 (DELETE_FROM_room_users_WHERE_last_active_lt (activity_cutoff w))
                 (db w)).1 ∧
      trace w' =
        trace w ++ Commit ::
          (if decide (n > 0)
           then [Log app_logger INFO (Prune_old_room_activity_records n)]
           else [])
  end ∧ disk w' = disk w.
Proof.
  unfold result, after.
  destruct (next_fault w) as [msg|] eqn:F.
  { rewrite (prune_room_activity_fault w msg F). simpl. eauto. }
  rewrite (prune_room_activity_runs w F). simpl.
  case_decide; simpl; rewrite <- ?app_assoc; done.
Qed.

(** X6.  [prune_message_history] and [prune_room_activity] raise only the
    store's error, and then leave the store as it was behind a rollback.
    When they return they have committed once, and they log their INFO line
    exactly when they deleted a row: a run that changes nothing of its table
    is silent.  Neither ever touches the disk. *)
Theorem history_and_activity_outcomes w :
  (let w' := after prune_message_history w in
   (∀ e, result prune_message_history w = inl e →
      (∃ msg, e = DatabaseError msg) ∧ db w' = db w ∧
      new_events w w' = [Rollback]) ∧
   (∀ n, result prune_message_history w = inr n →
      (message_history (db w') = message_history (db w) →
         n = 0 ∧ new_events w w' = [Commit]) ∧
      (message_history (db w') ≠ message_history (db w) →
         0 < n ∧
         new_events w w' =
           [Commit; Log app_logger INFO (Pruned_message_edit_deletion_records n)])) ∧
   disk w' = disk w) ∧
  (let w' := after prune_room_activity w in
   (∀ e, result prune_room_activity w = inl e →
      (∃ msg, e = DatabaseError msg) ∧ db w' = db w ∧
      new_events w w' = [Rollback]) ∧
   (∀ n, result prune_room_activity w = inr n →
      (room_users (db w') = room_users (db w) →
         n = 0 ∧ new_events w w' = [Commit]) ∧
      (room_users (db w') ≠ room_users (db w) →
         0 < n ∧
         new_events w w' =
           [Commit; Log app_logger INFO (Prune_old_room_activity_records n)])) ∧
   disk w' = disk w).
Proof.
  assert (∀ {A} (P : A → Prop) `{∀ x, Decision (P x)} (l : list A),
            filter (λ x, ¬ P x) l = l ↔ len (filter P l) = 0) as Hkeep.
  { intros A P ? l. rewrite len_nil_iff, filter_nil_iff. split.
    - intros E x Hx HP. rewrite <- E in Hx.
      by apply list_elem_of_filter in Hx as [? _].
    - intros Hall. induction l as [|x l IH]; [done|].
      rewrite filter_cons_True by (apply Hall; left).
      f_equal. apply IH. intros y Hy. apply Hall. by right. }
  split.
  - intros w'. pose proof (prune_message_history_outcome w) as [Hout Hdisk].
    fold w' in Hout, Hdisk. split; [|split; [|done]].
    + intros e R. rewrite R in Hout. destruct Hout as (? & ? & Ht).
      by rewrite (new_events_app _ _ _ Ht).
    + intros n R. rewrite R in Hout. destruct Hout as (Hn & Hdb & Ht).
      rewrite Hdb. simpl. rewrite Hkeep, <- Hn. split.
      * intros ->. by rewrite (new_events_app _ _ _ Ht).
      * intros Hnz. assert (0 < n) by (rewrite Hn in *; unfold len in *; lia).
        rewrite decide_True in Ht by lia.
        by rewrite (new_events_app _ _ _ Ht).
  - intros w'. pose proof (prune_room_activity_outcome w) as [Hout Hdisk].
    fold w' in Hout, Hdisk. split; [|split; [|done]].
    + intros e R. rewrite R in Hout. destruct Hout as (? & ? & Ht).
      by rewrite (new_events_app _ _ _ Ht).
    + intros n R. rewrite R in Hout. destruct Hout as (Hn & Hdb & Ht).
      rewrite Hdb. simpl. rewrite Hkeep, <- Hn. split.
      * intros ->. by rewrite (new_events_app _ _ _ Ht).
      * intros Hnz. assert (0 < n) by (rewrite Hn in *; unfold len in *; lia).
        rewrite decide_True in Ht by lia.
        by rewrite (new_events_app _ _ _ Ht).
Qed.

Lemma history_and_activity_outcomes_witness :
  (result prune_message_history scenario = inr 0 ∧
   new_events scenario (after prune_message_history scenario) = [Commit]) ∧
  (result prune_room_activity scenario_retention = inr 1 ∧
   new_events scenario_retention (after prune_room_activity scenario_retention)
     = [Commit; Log app_logger INFO (Prune_old_room_activity_records 1)]).
Proof.
  destruct (history_and_activity_outcomes scenario) as ((_ & Hh & _) & _).
  destruct (history_and_activity_outcomes scenario_retention) as (_ & _ & Ha & _).
  assert (result prune_message_history scenario = inr 0) as R1
    by (vm_compute; reflexivity).
  assert (result prune_room_activity scenario_retention = inr 1) as R2
    by (vm_compute; reflexivity).
  destruct (Hh 0 R1) as [Hsame _]. destruct (Ha 1 R2) as [_ Hchanged].
  split; (split; [done|]).
  - apply Hsame. vm_compute. reflexivity.
  - apply Hchanged. vm_compute. discriminate.
Defined.

(** * Further properties of the permission-future applier *)

Lemma flags_eq (a b : Flags) : (∀ c, flag c a = flag c b) → a = b.
Proof.
  intros H. destruct a, b.
  pose proof (H Read). pose proof (H Write).
  pose proof (H Upload). pose proof (H Banned). simpl in *. congruence.
Qed.

(** Every outcome of [apply_permission_updates] at once. *)
Lemma apply_permission_updates_outcome w :
  let w' := after apply_permission_updates w in
  (user_permission_overrides (db w') = user_permission_overrides (db w) ∨
   user_permission_overrides (db w')
     = foldl upsert (user_permission_overrides (db w)) (due w)) ∧
  files (db w') = files (db w) ∧
  message_history (db w') = message_history (db w) ∧
  room_users (db w') = room_users (db w) ∧
  disk w' = disk w.
Proof.
  unfold after.
  destruct (next_fault w) as [msg|] eqn:F.
  { rewrite (apply_permission_updates_upsert_fault w msg F). simpl. tauto. }
  destruct (decide (due w = [])) as [E|E].
  { rewrite (apply_permission_updates_nothing w F E). simpl. tauto. }
  destruct (next_fault (spent w)) as [msg|] eqn:F2.
  { rewrite (apply_permission_updates_delete_fault w msg F E F2). simpl. tauto. }
  rewrite (apply_permission_updates_some w F E F2). simpl. tauto.
Qed.

(** X7.  [apply_permission_updates] never takes a permission away from the
    live table, whatever its outcome: every (room, user) that had a row has
    one afterwards, and a flag that was set (to true or to false) is still
    set afterwards; only a future that sets the flag itself can change its
    value. *)
Theorem apply_permission_updates_never_clears w k :
  let live := user_permission_overrides (db w) in
  let live' := user_permission_overrides (db (after apply_permission_updates w)) in
  (is_Some (live !! k) → is_Some (live' !! k)) ∧
  (∀ c, is_Some (live !! k ≫= flag c) → is_Some (live' !! k ≫= flag c)) ∧
  (∀ c, live' !! k ≫= flag c ≠ live !! k ≫= flag c →
        ∃ f b, f ∈ user_permission_futures (db w) ∧ key f = k ∧
               at_ f ≤ clock w (reads w) ∧ flag c (perms f) = Some b ∧
               live' !! k ≫= flag c = Some b).
Proof.
  intros live live'.
  destruct (apply_permission_updates_outcome w) as ([Hov|Hov] & _);
    fold live live' in Hov; rewrite Hov.
  { split; [done|]. split; [done|]. by intros c []. }
  rewrite foldl_upsert_lookup. split; [|split].
  - intros H. apply chain_is_Some. by left.
  - intros c H. rewrite chain_flag. by destruct (last _).
  - intros c. rewrite chain_flag.
    destruct (last _) as [b|] eqn:Hlast; [|done]. intros _.
    apply last_Some_elem_of, list_elem_of_omap in Hlast as (f & Hf & Hb).
    apply list_elem_of_filter in Hf as [Hk Hf].
    apply list_elem_of_filter in Hf as [Hat Hf]. eauto 10.
Qed.

Lemma apply_permission_updates_never_clears_witness :
  is_Some (user_permission_overrides
             (db (after apply_permission_updates scenario_permissions))
             !! (1, 7) ≫= flag Read).
Proof.
  apply (apply_permission_updates_never_clears scenario_permissions (1, 7)).
  vm_compute. eauto.
Defined.

(** Feeding a chain of futures to a row a second time changes nothing. *)
Lemma chain_twice l o :
  foldl (λ o f, Some (upsert_row o f)) o (l ++ l)
    = foldl (λ o f, Some (upsert_row o f)) o l.
Proof.
  destruct (foldl (λ o f, Some (upsert_row o f)) o (l ++ l)) as [a|] eqn:Ea;
  destruct (foldl (λ o f, Some (upsert_row o f)) o l) as [b|] eqn:Eb.
  - f_equal. apply flags_eq. intros c.
    assert (Some a ≫= flag c = Some b ≫= flag c) as H; [|done].
    rewrite <- Ea, <- Eb, !chain_flag, omap_app, last_app.
    by destruct (last (omap _ l)).
  - assert (is_Some (foldl (λ o f, Some (upsert_row o f)) o l)) as [? H];
      [|congruence].
    apply chain_is_Some.
    assert (is_Some (foldl (λ o f, Some (upsert_row o f)) o (l ++ l))) as H
      by (rewrite Ea; eauto).
    apply chain_is_Some in H as [?|H]; [by left|right].
    by destruct l.
  - assert (is_Some (foldl (λ o f, Some (upsert_row o f)) o (l ++ l))) as [? H];
      [|congruence].
    apply chain_is_Some.
    assert (is_Some (foldl (λ o f, Some (upsert_row o f)) o l)) as H
      by (rewrite Eb; eauto).
    apply chain_is_Some in H as [?|H]; [by left|right].
    by destruct l.
  - done.
Qed.

(** X8.  Applying a batch of futures to the live table once more changes
    nothing: what the upsert wrote is a fixed point of the same batch, so
    futures that were merged but are still in the table do no harm when
    they are merged again. *)
Theorem upsert_batch_twice (ov : gmap (Z * Z) Flags) (batch : list Future) :
  foldl upsert (foldl upsert ov batch) batch = foldl upsert ov batch.
Proof.
  rewrite <- foldl_app. apply map_eq. intros k.
  rewrite !foldl_upsert_lookup, filter_app. apply chain_twice.
Qed.

Lemma filter_key_short (l : list Future) k :
  NoDup (key <$> l) → (length (filter (λ f, key f = k) l) ≤ 1)%nat.
Proof.
  induction l as [|f l IH]; [simpl; lia|].
  rewrite fmap_cons, NoDup_cons. intros [Hf Hl].
  rewrite filter_cons. case_decide as Hk; [|by apply IH].
  replace (filter (λ f, key f = k) l) with (@nil Future); [done|].
  symmetry. apply filter_nil_iff. intros g Hg Hgk. apply Hf.
  apply list_elem_of_fmap. exists g. split; [congruence|done].
Qed.

(** The order of a batch is of no matter when no two of its futures share
    a (room, user). *)
Lemma upsert_batch_order (ov : gmap (Z * Z) Flags) (l l' : list Future) :
  NoDup (key <$> l) → l ≡ₚ l' → foldl upsert ov l = foldl upsert ov l'.
Proof.
  intros Hnd Hperm. apply map_eq. intros k.
  rewrite !foldl_upsert_lookup.
  assert (filter (λ f, key f = k) l ≡ₚ filter (λ f, key f = k) l') as Hp
    by (by rewrite Hperm).
  pose proof (filter_key_short l k Hnd) as Hlen.
  destruct (filter (λ f, key f = k) l) as [|f [|g rest]] eqn:E.
  - apply Permutation_nil_l in Hp. by rewrite Hp.
  - apply Permutation_singleton_l in Hp. by rewrite <- Hp.
  - simpl in Hlen. lia.
Qed.

(** X9.  The order of the rows of [user_permission_futures] is of no matter
    to [apply_permission_updates] when no two of the due futures are for
    the same (room, user): from two worlds with the same live table, the
    same reading of the clock and the same futures in another order, two
    runs that return leave the same live table and return the same
    count. *)
Theorem apply_permission_updates_order w1 w2 n1 n2 :
  result apply_permission_updates w1 = inr n1 →
  result apply_permission_updates w2 = inr n2 →
  user_permission_overrides (db w1) = user_permission_overrides (db w2) →
  clock w1 (reads w1) = clock w2 (reads w2) →
  user_permission_futures (db w1) ≡ₚ user_permission_futures (db w2) →
  NoDup (key <$> filter (λ f, at_ f ≤ clock w1 (reads w1))
                   (user_permission_futures (db w1))) →
  user_permission_overrides (db (after apply_permission_updates w1))
    = user_permission_overrides (db (after apply_permission_updates w2)) ∧
  n1 = n2.
Proof.
  intros R1 R2 Hov Hclk Hperm Hnd.
  destruct (apply_permission_updates_returns w1 n1 R1) as (-> & -> & _).
  destruct (apply_permission_updates_returns w2 n2 R2) as (-> & -> & _).
  assert (due w1 ≡ₚ due w2) as Hdue.
  { unfold due. rewrite <- Hclk. by rewrite Hperm. }
  split.
  - rewrite Hov. by apply upsert_batch_order.
  - unfold len. by rewrite Hdue.
Qed.

Lemma apply_permission_updates_order_witness :
  user_permission_overrides (db (after apply_permission_updates scenario_permissions))
    = user_permission_overrides
        (db (after apply_permission_updates scenario_permissions_reordered)).
Proof.
  apply (apply_permission_updates_order
           scenario_permissions scenario_permissions_reordered 2 2).
  - vm_compute. reflexivity.
  - vm_compute. reflexivity.
  - reflexivity.
  - reflexivity.
  - change ([future_1_7; future_later; future_2_9]
            ≡ₚ [future_2_9; future_later; future_1_7]).
    etrans; [apply Permutation_swap|].
    etrans; [apply Permutation_skip, Permutation_swap|].
    etrans; [apply Permutation_swap|]. done.
  - vm_compute. repeat constructor; rewrite ?elem_of_cons, ?elem_of_nil;
      intros H; repeat destruct H as [H|H]; done.
Defined.

(** * Further properties of the driver *)

(** [cleanup], one case for each place it can stop. *)
Lemma cleanup_unfold w :
  let w0 := started w in
  let w1 := after prune_files w0 in
  let w2 := after prune_message_history w1 in
  let w3 := after prune_room_activity w2 in
  let w4 := after apply_permission_updates w3 in
  cleanup w =
    match result prune_files w0 with
    | inl e => (inr tt, emit (warning e) w1)
    | inr files =>
      match result prune_message_history w1 with
      | inl e => (inr tt, emit (warning e) w2)
      | inr msg_hist =>
        match result prune_room_activity w2 with
        | inl e => (inr tt, emit (warning e) w3)
        | inr room_act =>
          match result apply_permission_updates w3 with
          | inl e => (inr tt, emit (warning e) w4)
          | inr perm_upd =>
              (inr tt,
               emit (Log app_logger DEBUG
                       (Pruned_files_msg_hist_room_activity_perm_updates
                          files msg_hist room_act perm_upd)) w4)
          end
        end
      end
    end.
Proof.
  simpl. unfold cleanup, try_except, bind, log_to, result, after.
  simpl. fold (started w).
  destruct (prune_files (started w)) as [[e|n1] w1]; simpl; [done|].
  destruct (prune_message_history w1) as [[e|n2] w2]; simpl; [done|].
  destruct (prune_room_activity w2) as [[e|n3] w3]; simpl; [done|].
  destruct (apply_permission_updates w3) as [[e|n4] w4]; simpl; done.
Qed.

(** [prune_files] has no hand in the four other tables, whatever its
    outcome. *)
Lemma prune_files_frame w :
  let w' := after prune_files w in
  message_history (db w') = message_history (db w) ∧
  room_users (db w') = room_users (db w) ∧
  user_permission_overrides (db w') = user_permission_overrides (db w) ∧
  user_permission_futures (db w') = user_permission_futures (db w).
Proof.
  intros w'. unfold w'. rewrite prune_files_db.
  destruct (result prune_files w); [done|]. by case_decide.
Qed.

(** The two history pruners have a hand in their own table only. *)
Lemma prune_message_history_frame w :
  let w' := after prune_message_history w in
  files (db w') = files (db w) ∧ room_users (db w') = room_users (db w) ∧
  user_permission_overrides (db w') = user_permission_overrides (db w) ∧
  user_permission_futures (db w') = user_permission_futures (db w) ∧
  disk w' = disk w ∧
  (∀ e, result prune_message_history w = inl e → db w' = db w).
Proof.
  intros w'. destruct (prune_message_history_outcome w) as [Hout Hdisk].
  fold w' in Hout, Hdisk.
  destruct (result prune_message_history w) as [e|n].
  - destruct Hout as (_ & -> & _). repeat split; eauto.
  - destruct Hout as (_ & -> & _). simpl. repeat split; try done.
Qed.

Lemma prune_room_activity_frame w :
  let w' := after prune_room_activity w in
  files (db w') = files (db w) ∧ message_history (db w') = message_history (db w) ∧
  user_permission_overrides (db w') = user_permission_overrides (db w) ∧
  user_permission_futures (db w') = user_permission_futures (db w) ∧
  disk w' = disk w ∧
  (∀ e, result prune_room_activity w = inl e → db w' = db w).
Proof.
  intros w'. destruct (prune_room_activity_outcome w) as [Hout Hdisk].
  fold w' in Hout, Hdisk.
  destruct (result prune_room_activity w) as [e|n].
  - destruct Hout as (_ & -> & _). repeat split; eauto.
  - destruct Hout as (_ & -> & _). simpl. repeat split; try done.
Qed.

(** X10.  Each operation of a tick commits on its own, and [cleanup] stops
    at the first that raises: whatever happens later in the tick, [files]
    and the disk are as [prune_files] left them; each other table is as its
    own operation left it when all the operations before it returned, and
    as it was before the tick otherwise; a raising operation leaves its own
    table as it was. *)
Theorem cleanup_keeps_committed_work w :
  let w0 := started w in
  let w1 := after prune_files w0 in
  let w2 := after prune_message_history w1 in
  let w3 := after prune_room_activity w2 in
  let w4 := after apply_permission_updates w3 in
  let d := db (after cleanup w) in
  files d = files (db w1) ∧
  disk (after cleanup w) = disk w1 ∧
  message_history d =
    match result prune_files w0 with
    | inr _ => message_history (db w2)
    | inl _ => message_history (db w)
    end ∧
  room_users d =
    match result prune_files w0, result prune_message_history w1 with
    | inr _, inr _ => room_users (db w3)
    | _, _ => room_users (db w)
    end ∧
  (user_permission_overrides d, user_permission_futures d) =
    match result prune_files w0, result prune_message_history w1,
          result prune_room_activity w2 with
    | inr _, inr _, inr _ =>
        (user_permission_overrides (db w4), user_permission_futures (db w4))
    | _, _, _ =>
        (user_permission_overrides (db w), user_permission_futures (db w))
    end ∧
  (∀ e, result prune_files w0 = inl e → files d = files (db w)) ∧
  (∀ e, result prune_message_history w1 = inl e →
        message_history (db w2) = message_history (db w)) ∧
  (∀ e, result prune_room_activity w2 = inl e →
        room_users (db w3) = room_users (db w)) ∧
  (∀ e, result apply_permission_updates w3 = inl e →
        user_permission_overrides (db w4) = user_permission_overrides (db w) ∧
        user_permission_futures (db w4) = user_permission_futures (db w)).
Proof.
  intros w0 w1 w2 w3 w4 d.
  pose proof (cleanup_unfold w) as Hc. simpl in Hc. fold w0 w1 w2 w3 w4 in Hc.
  destruct (prune_files_frame w0) as (F1m & F1r & F1o & F1f).
  destruct (prune_message_history_frame w1) as (F2f & F2r & F2o & F2u & F2d & F2e).
  destruct (prune_room_activity_frame w2) as (F3f & F3m & F3o & F3u & F3d & F3e).
  destruct (apply_permission_updates_outcome w3) as (_ & F4f & F4m & F4r & F4d).
  fold w1 in F1m, F1r, F1o, F1f. fold w2 in F2f, F2r, F2o, F2u, F2d, F2e.
  fold w3 in F3f, F3m, F3o, F3u, F3d, F3e. fold w4 in F4f, F4m, F4r, F4d.
  change (db w0) with (db w) in *.
  assert (∀ e, result apply_permission_updates w3 = inl e → db w4 = db w3)
    as F4e by apply apply_permission_updates_raises.
  unfold d. change (after cleanup w) with (cleanup w).2. rewrite Hc.
  assert (∀ e, result prune_files w0 = inl e → db w1 = db w) as F1e
    by (intros e R; exact (prune_files_raises w0 e R)).
  destruct (result prune_files w0) as [e1|n1] eqn:R1;
    [|destruct (result prune_message_history w1) as [e2|n2] eqn:R2;
      [|destruct (result prune_room_activity w2) as [e3|n3] eqn:R3;
        [|destruct (result apply_permission_updates w3) as [e4|n4] eqn:R4]]];
    simpl; repeat split; intros;
    repeat match goal with
    | H : inl _ = inl _ |- _ => clear H
    | H : inr _ = inl _ |- _ => discriminate H
    | H : result prune_message_history w1 = inl _ |- _ =>
        pose proof (F2e _ H); clear H
    | H : result prune_room_activity w2 = inl _ |- _ =>
        pose proof (F3e _ H); clear H
    | H : result apply_permission_updates w3 = inl _ |- _ =>
        pose proof (F4e _ H); clear H
    end;
    try (pose proof (F1e _ eq_refl)); try (pose proof (F2e _ eq_refl));
    try (pose proof (F3e _ eq_refl)); try (pose proof (F4e _ eq_refl));
    try done; try congruence; f_equal; congruence.
Qed.

Lemma cleanup_keeps_committed_work_witness :
  result prune_message_history (after prune_files (started scenario_locked))
    = inl (DatabaseError "database is locked") ∧
  files (db (after cleanup scenario_locked)) = [file_D] ∧
  message_history (db (after prune_message_history
                         (after prune_files (started scenario_locked))))
    = message_history (db scenario_locked).
Proof.
  assert (result prune_message_history (after prune_files (started scenario_locked))
          = inl (DatabaseError "database is locked")) as R
    by (vm_compute; reflexivity).
  split; [exact R|].
  destruct (cleanup_keeps_committed_work scenario_locked)
    as (Hfiles & _ & _ & _ & _ & _ & Hhist & _).
  split; [rewrite Hfiles; vm_compute; reflexivity|].
  exact (Hhist _ R).
Defined.

Lemma filter_not_id {A} (P : A → Prop) `{∀ x, Decision (P x)} (l : list A) :
  filter P l = [] → filter (λ x, ¬ P x) l = l.
Proof.
  rewrite filter_nil_iff. intros Hall. induction l as [|x l IH]; [done|].
  rewrite filter_cons_True by (apply Hall; left).
  f_equal. apply IH. intros y Hy. apply Hall. by right.
Qed.

(** X11.  A tick on a store that raises nothing, told from the world it
    starts in: the four operations read the clock one after the other, each
    table is pruned against its own reading (for the two history tables
    against the cutoff the code computes from that reading in floats), and
    the closing DEBUG line carries the four counts.  The futures due at the fourth reading are
    merged into the live table and gone from theirs; rows of [files] are
    deleted up to and including the first reading, but only when one lies
    strictly before it. *)
Theorem cleanup_healthy_tick w :
  faults w = [] →
  let t := λ i, clock w (reads w + i)%nat in
  let d := db w in
  let d' := db (after cleanup w) in
  let expired_rows := filter (λ r, expiry r < t 0%nat) (files d) in
  let old_history :=
    filter (λ r, lt_float (replaced r)
                   (float_sub (t 1%nat) (float_mul (MESSAGE_HISTORY_PRUNE_THRESHOLD (config w)) 86400)))
      (message_history d) in
  let old_activity :=
    filter (λ r, lt_float (last_active r)
                   (float_sub (t 2%nat) (float_mul (ROOM_ACTIVE_PRUNE_THRESHOLD (config w)) 86400)))
      (room_users d) in
  let due_futures := filter (λ f, at_ f ≤ t 3%nat) (user_permission_futures d) in
  result cleanup w = inr tt ∧
  last (trace (after cleanup w))
    = Some (Log app_logger DEBUG
              (Pruned_files_msg_hist_room_activity_perm_updates
                 (len expired_rows) (len old_history)
                 (len old_activity) (len due_futures))) ∧
  files d' = (if decide (expired_rows = []) then files d
              else filter (λ r, ¬ expiry r ≤ t 0%nat) (files d)) ∧
  message_history d'
    = filter (λ r, ¬ lt_float (replaced r)
                       (float_sub (t 1%nat) (float_mul (MESSAGE_HISTORY_PRUNE_THRESHOLD (config w)) 86400)))
        (message_history d) ∧
  room_users d'
    = filter (λ r, ¬ lt_float (last_active r)
                       (float_sub (t 2%nat) (float_mul (ROOM_ACTIVE_PRUNE_THRESHOLD (config w)) 86400)))
        (room_users d) ∧
  user_permission_overrides d'
    = foldl upsert (user_permission_overrides d) due_futures ∧
  user_permission_futures d'
    = filter (λ f, ¬ at_ f ≤ t 3%nat) (user_permission_futures d).
Proof.
  intros Hnf t d d' expired_rows old_history old_activity due_futures.
  set (w0 := started w). set (w1 := after prune_files w0).
  set (w2 := after prune_message_history w1).
  set (w3 := after prune_room_activity w2).
  set (w4 := after apply_permission_updates w3).
  destruct (prune_files_env w0) as (Hr1 & Hc1 & Hg1 & Hf1).
  destruct (prune_message_history_env w1) as (Hr2 & Hc2 & Hg2 & Hf2).
  destruct (prune_room_activity_env w2) as (Hr3 & Hc3 & Hg3 & Hf3).
  fold w1 in Hr1, Hc1, Hg1, Hf1. fold w2 in Hr2, Hc2, Hg2, Hf2.
  fold w3 in Hr3, Hc3, Hg3, Hf3.
  assert (faults w0 = []) as Hf0 by done.
  specialize (Hf1 Hf0). specialize (Hf2 Hf1). specialize (Hf3 Hf2).
  destruct (prune_files_total w0) as [n1 R1]; [by apply no_fault_nil|].
  destruct (prune_message_history_total w1) as [n2 R2]; [by apply no_fault_nil|].
  destruct (prune_room_activity_total w2) as [n3 R3]; [by apply no_fault_nil|].
  destruct (apply_permission_updates_total w3) as [n4 R4];
    [by apply no_fault_nil|].
  fold w1 w2 w3 in R2, R3, R4.
  pose proof (cleanup_unfold w) as Hc. simpl in Hc.
  fold w0 w1 w2 w3 w4 in Hc. rewrite R1, R2, R3, R4 in Hc.
  destruct (prune_files_frame w0) as (F1m & F1r & F1o & F1u).
  fold w1 in F1m, F1r, F1o, F1u.
  pose proof (prune_files_db w0) as Hdb1. fold w1 in Hdb1. rewrite R1 in Hdb1.
  destruct (prune_files_returns w0 n1 R1) as (Hn1 & _).
  destruct (prune_message_history_returns w1 n2 R2)
    as (Hn2 & Hm2 & F2f & F2r & F2o & F2u & _).
  destruct (prune_room_activity_returns w2 n3 R3)
    as (Hn3 & Hr3' & F3f & F3m & F3o & F3u & _).
  destruct (apply_permission_updates_returns w3 n4 R4)
    as (Hn4 & Ho4 & Hu4 & F4f & F4m & F4r & _).
  fold w2 in Hm2, F2f, F2r, F2o, F2u. fold w3 in Hr3', F3f, F3m, F3o, F3u.
  fold w4 in Ho4, Hu4, F4f, F4m, F4r.
  assert (reads w0 = reads w) as Hr0 by done.
  assert (clock w0 = clock w) as Hc0 by done.
  assert (config w0 = config w) as Hg0 by done.
  assert (db w0 = d) as Hd0 by done.
  assert (expired w0 = expired_rows) as He.
  { unfold expired, expired_rows, t. by rewrite Nat.add_0_r. }
  assert (history_cutoff w1
          = float_sub (t 1%nat)
              (float_mul (MESSAGE_HISTORY_PRUNE_THRESHOLD (config w)) 86400)) as Hh.
  { unfold history_cutoff, t. rewrite Hc1, Hg1, Hr1, Hc0, Hg0, Hr0.
    by rewrite Nat.add_1_r. }
  assert (activity_cutoff w2
          = float_sub (t 2%nat)
              (float_mul (ROOM_ACTIVE_PRUNE_THRESHOLD (config w)) 86400)) as Ha.
  { unfold activity_cutoff, t.
    rewrite Hc2, Hg2, Hr2, Hc1, Hg1, Hr1, Hc0, Hg0, Hr0.
    by replace (reads w + 2)%nat with (S (S (reads w))) by lia. }
  assert (clock w3 (reads w3) = t 3%nat) as Ht3.
  { unfold t. rewrite Hc3, Hr3, Hc2, Hr2, Hc1, Hr1, Hc0, Hr0.
    by replace (reads w + 3)%nat with (S (S (S (reads w)))) by lia. }
  assert (user_permission_futures (db w3) = user_permission_futures d) as Hu3
    by congruence.
  assert (due w3 = due_futures) as Hd.
  { unfold due, due_futures. by rewrite Ht3, Hu3. }
  rewrite He in Hn1, Hdb1. rewrite Hh in Hn2, Hm2. rewrite Ha in Hn3, Hr3'.
  rewrite Hd in Hn4, Ho4, Hu4. rewrite Ht3 in Hu4.
  unfold d'. change (after cleanup w) with (cleanup w).2.
  change (result cleanup w) with (cleanup w).1. rewrite Hc. simpl.
  split; [done|]. split; [|split; [|split; [|split; [|split]]]].
  - rewrite last_snoc. do 2 f_equal. unfold old_history, old_activity.
    rewrite Hn1, Hn2, Hn3, Hn4, F1m, F2r, F1r. done.
  - rewrite F4f, F3f, F2f, Hdb1.
    destruct (decide (expired_rows = [])); [done|].
    rewrite files_deleted_files. unfold t.
    by rewrite Hc0, Hr0, Nat.add_0_r.
  - rewrite F4m, F3m, Hm2, F1m. done.
  - rewrite F4r, Hr3', F2r, F1r. done.
  - rewrite Ho4, F3o, F2o, F1o. done.
  - rewrite Hu4, Hu3. destruct (decide (due_futures = [])) as [E|E]; [|done].
    symmetry. by apply filter_not_id.
Qed.

Lemma cleanup_healthy_tick_witness :
  last (trace (after cleanup scenario_retention))
    = Some (Log app_logger DEBUG
              (Pruned_files_msg_hist_room_activity_perm_updates 0 2 2 0)).
Proof.
  destruct (cleanup_healthy_tick scenario_retention) as (_ & Hlast & _);
    [reflexivity|].
  rewrite Hlast. vm_compute. reflexivity.
Defined.

(** * What the applier deletes *)

(** X12.  [apply_permission_updates] deletes no future it has not merged:
    when a run returns, a future that is gone from
    [user_permission_futures] was due, its (room, user) has a live row
    afterwards, and every flag the future sets is set in that row (to the
    future's value, unless a later due future of the same pair sets it
    again). *)
Theorem apply_permission_updates_deletes_only_merged w n f :
  result apply_permission_updates w = inr n →
  let w' := after apply_permission_updates w in
  let live' := user_permission_overrides (db w') in
  f ∈ user_permission_futures (db w) →
  f ∉ user_permission_futures (db w') →
  at_ f ≤ clock w (reads w) ∧
  is_Some (live' !! key f) ∧
  (∀ c, is_Some (flag c (perms f)) → is_Some (live' !! key f ≫= flag c)) ∧
  (∀ c b, flag c (perms f) = Some b →
     filter (λ g, key g = key f)
       (filter (λ g, at_ g ≤ clock w (reads w)) (user_permission_futures (db w)))
       = [f] →
     live' !! key f ≫= flag c = Some b).
Proof.
  intros R w' live' Hin Hout.
  destruct (apply_permission_updates_returns w n R) as (_ & Hov & Hfut & _).
  fold w' live' in Hov, Hfut. rewrite Hfut in Hout.
  assert (f ∈ due w) as Hdue.
  { apply list_elem_of_filter. split; [|done].
    case_decide; [done|]. rewrite list_elem_of_filter in Hout.
    destruct (decide (at_ f ≤ clock w (reads w))); [done|]. tauto. }
  assert (f ∈ filter (λ g, key g = key f) (due w)) as Hchain
    by (by apply list_elem_of_filter).
  split; [by apply list_elem_of_filter in Hdue as [? _]|].
  rewrite Hov, foldl_upsert_lookup. split; [|split].
  - apply chain_is_Some. right. intros E. rewrite E in Hchain.
    by apply elem_of_nil in Hchain.
  - intros c [b Hb]. rewrite chain_flag.
    destruct (last _) as [b'|] eqn:Hlast; [done|].
    apply last_None in Hlast.
    assert (b ∈ omap (λ f0, flag c (perms f0))
                  (filter (λ g, key g = key f) (due w))) as Hb'
      by (apply list_elem_of_omap; eauto).
    rewrite Hlast in Hb'. by apply elem_of_nil in Hb'.
  - intros c b Hb Hone. change (filter _ (user_permission_futures (db w)))
      with (due w) in Hone. rewrite Hone. simpl.
    rewrite flag_upsert_row, Hb. done.
Qed.

Lemma apply_permission_updates_deletes_only_merged_witness :
  result apply_permission_updates scenario_permissions = inr 2 ∧
  user_permission_overrides
    (db (after apply_permission_updates scenario_permissions))
    !! (2, 9) ≫= flag Upload = Some true.
Proof.
  assert (result apply_permission_updates scenario_permissions = inr 2) as R
    by (vm_compute; reflexivity).
  split; [exact R|].
  destruct (apply_permission_updates_deletes_only_merged
              scenario_permissions 2 future_2_9 R) as (_ & _ & _ & Hflag).
  - vm_compute. do 2 right. left.
  - vm_compute. intros H. apply list_elem_of_In in H. simpl in H.
    destruct H as [H|[]]. discriminate H.
  - apply (Hflag Upload true); reflexivity.
Defined.
